(** * A Scheme reader: tokenizer, datum parser and numeric-literal analyzer

    Shallow embedding of the Go packages [lexer], [parser] and
    [parser/number] of the repository.  Runes are integers ([Z]); Go strings
    are modelled as the sequence of runes they hold.  A Go panic is the
    [Panic] outcome of [Res]; functions that loop are given fuel, and running
    out of it is the separate outcome [OutOfFuel], which never stands for a
    behaviour of the program. *)

From Stdlib Require Import ZArith Ascii String List Bool Lia.
From Corelib Require Import PrimFloat.
Import ListNotations.
Open Scope Z_scope.

(** ** Runes and Go strings *)

Definition rune := Z.

(** [scanner.EOF] *)
Definition scanner_EOF : rune := -1.

Definition rn (c : ascii) : rune := Z.of_nat (nat_of_ascii c).

(** A Rocq string literal as the Go string (sequence of runes) it denotes. *)
Fixpoint str (s : string) : list rune :=
  match s with
  | EmptyString => []
  | String c s' => rn c :: str s'
  end.

Fixpoint rune_eqs (a b : list rune) : bool :=
  match a, b with
  | [], [] => true
  | x :: a', y :: b' => (x =? y) && rune_eqs a' b'
  | _, _ => false
  end.

(** [strings.ContainsRune] *)
Definition ContainsRune (s : list rune) (r : rune) : bool :=
  existsb (fun x => x =? r) s.

(** [strings.ReplaceAll(s, old, new)] for one-rune [old] and [new]. *)
Definition ReplaceAllRune (s : list rune) (o n : rune) : list rune :=
  map (fun x => if x =? o then n else x) s.

(** ** Outcomes *)

(** The [Err] of a [strconv.NumError]. *)
Inductive NumErr := ErrSyntax | ErrRange | ErrBase.

(** The value a Go panic carries: an error of [strconv] (its function name
    and [Err]), a run-time error, or a string. *)
Inductive PanicValue :=
| PNumError (fn : list rune) (e : NumErr)
| PRuntime (what : list rune)
| PString (s : list rune).

Inductive Res (A : Type) : Type :=
| Ok (a : A)
| Panic (v : PanicValue)
| OutOfFuel.
Arguments Ok {A} a.
Arguments Panic {A} v.
Arguments OutOfFuel {A}.

Definition bind {A B} (m : Res A) (k : A -> Res B) : Res B :=
  match m with
  | Ok a => k a
  | Panic e => Panic e
  | OutOfFuel => OutOfFuel
  end.

Notation "x <- m ;; k" := (bind m (fun x => k))
  (at level 61, m at next level, right associativity).
Notation "' p <- m ;; k" := (bind m (fun x => match x with p => k end))
  (at level 61, p pattern, m at next level, right associativity).

(** ** The regexp engine ([regexp] package)

    A regexp is parsed from its Go source text by [parse_regexp] and
    matched with leftmost-first (Perl) preference, which is the semantics
    of [regexp.FindStringSubmatch].  A capture records the group name
    (empty for an unnamed group) and the matched text. *)

Inductive re : Type :=
| RLit (c : rune)
| RClass (rs : list (rune * rune))
| RBeginText
| REndText
| REmpty
| RCat (a b : re)
| RAlt (a b : re)
| RStar (a : re)
| RPlus (a : re)
| RQuest (a : re)
| RCap (name : list rune) (a : re).

Definition in_class (rs : list (rune * rune)) (c : rune) : bool :=
  existsb (fun '(lo, hi) => (lo <=? c) && (c <=? hi)) rs.

Section RegexpSyntax.

Let ch (c : ascii) := rn c.

(** The items of a bracketed class, up to the closing [\]]. *)
Fixpoint p_class (fuel : nat) (s : list rune) : option (list (rune * rune) * list rune) :=
  match fuel with
  | O => None
  | S f =>
    match s with
    | c :: s1 =>
      if c =? ch "]" then Some ([], s1)
      else
        match s1 with
        | m :: d :: s2 =>
          if (m =? ch "-") && negb (d =? ch "]") then
            match p_class f s2 with
            | Some (rs, s3) => Some ((c, d) :: rs, s3)
            | None => None
            end
          else
            match p_class f s1 with
            | Some (rs, s3) => Some ((c, c) :: rs, s3)
            | None => None
            end
        | _ =>
          match p_class f s1 with
          | Some (rs, s3) => Some ((c, c) :: rs, s3)
          | None => None
          end
        end
    | [] => None
    end
  end.

(** A group name, up to [>]. *)
Fixpoint p_name (fuel : nat) (s : list rune) : option (list rune * list rune) :=
  match fuel with
  | O => None
  | S f =>
    match s with
    | c :: s1 =>
      if c =? ch ">" then Some ([], s1)
      else match p_name f s1 with
           | Some (n, s2) => Some (c :: n, s2)
           | None => None
           end
    | [] => None
    end
  end.

Definition is_special (c : rune) : bool :=
  (c =? ch ")") || (c =? ch "|") || (c =? ch "*") || (c =? ch "+") || (c =? ch "?").

Fixpoint p_postfix (fuel : nat) (a : re) (s : list rune) : re * list rune :=
  match fuel with
  | O => (a, s)
  | S f =>
    match s with
    | c :: s1 =>
      if c =? ch "*" then p_postfix f (RStar a) s1
      else if c =? ch "+" then p_postfix f (RPlus a) s1
      else if c =? ch "?" then p_postfix f (RQuest a) s1
      else (a, s)
    | [] => (a, s)
    end
  end.

(** Recursive descent over the regexp text: an alternation is a
    concatenation, optionally followed by [|] and an alternation; a
    concatenation is a sequence of atoms, each with its postfix operators;
    an atom is a group (named [(?P<name>...)] or not), a bracketed class,
    an escaped rune, [^], [$] or a plain rune. *)
Fixpoint p_alt (fuel : nat) (s : list rune) : option (re * list rune) :=
  match fuel with
  | O => None
  | S f =>
    match p_cat f s with
    | Some (a, c :: s1) =>
      if c =? ch "|" then
        match p_alt f s1 with
        | Some (b, s2) => Some (RAlt a b, s2)
        | None => None
        end
      else Some (a, c :: s1)
    | r => r
    end
  end
with p_cat (fuel : nat) (s : list rune) : option (re * list rune) :=
  match fuel with
  | O => None
  | S f =>
    match s with
    | [] => Some (REmpty, [])
    | c :: _ =>
      if (c =? ch ")") || (c =? ch "|") then Some (REmpty, s)
      else
        match p_atom f s with
        | Some (a, s1) =>
          let '(a', s2) := p_postfix (length s1) a s1 in
          match s2 with
          | [] => Some (a', [])
          | d :: _ =>
            if (d =? ch ")") || (d =? ch "|") then Some (a', s2)
            else match p_cat f s2 with
                 | Some (b, s3) => Some (RCat a' b, s3)
                 | None => None
                 end
          end
        | None => None
        end
    end
  end
with p_atom (fuel : nat) (s : list rune) : option (re * list rune) :=
  match fuel with
  | O => None
  | S f =>
    match s with
    | c :: s1 =>
      if c =? ch "(" then
        match s1 with
        | q :: p :: l :: s2 =>
          if (q =? ch "?") && (p =? ch "P") && (l =? ch "<") then
            match p_name (length s2) s2 with
            | Some (nm, s3) =>
              match p_alt f s3 with
              | Some (a, r :: s4) =>
                if r =? ch ")" then Some (RCap nm a, s4) else None
              | _ => None
              end
            | None => None
            end
          else
            match p_alt f s1 with
            | Some (a, r :: s4) => if r =? ch ")" then Some (RCap [] a, s4) else None
            | _ => None
            end
        | _ =>
          match p_alt f s1 with
          | Some (a, r :: s4) => if r =? ch ")" then Some (RCap [] a, s4) else None
          | _ => None
          end
        end
      else if c =? ch "[" then
        match p_class (length s1) s1 with
        | Some (rs, s2) => Some (RClass rs, s2)
        | None => None
        end
      else if c =? ch "\" then
        match s1 with
        | e :: s2 => Some (RLit e, s2)
        | [] => None
        end
      else if c =? ch "^" then Some (RBeginText, s1)
      else if c =? ch "$" then Some (REndText, s1)
      else if is_special c then None
      else Some (RLit c, s1)
    | [] => None
    end
  end.

End RegexpSyntax.

(** [regexp/syntax.Parse]: the whole text must be consumed. *)
Definition parse_regexp (s : list rune) : option re :=
  match p_alt (4 * length s + 4) s with
  | Some (r, []) => Some r
  | _ => None
  end.

(** [compileRegexp]: [regexp.MustCompile(`^(` + s + `)$`)]. *)
Definition compileRegexp (s : string) : option re :=
  parse_regexp (str (String.append "^(" (String.append s ")$"))).

Definition caps := list (list rune * list rune).

(** Iterations of a starred regexp whose body parses with [pa]; an
    iteration must consume input. *)
Fixpoint star_parses (pa : list rune -> list (caps * list rune))
    (k : nat) (s : list rune) : list (caps * list rune) :=
  match k with
  | O => [([], s)]
  | S k' =>
    flat_map (fun '(c1, s1) =>
      if (length s1 <? length s)%nat
      then map (fun '(c2, s2) => (c1 ++ c2, s2)) (star_parses pa k' s1)
      else []) (pa s)
    ++ [([], s)]
  end.

(** All ways [r] matches a prefix of [s], in priority order; [n] is the
    length of the whole subject (for [^]). *)
Fixpoint parses (n : nat) (r : re) (s : list rune) : list (caps * list rune) :=
  match r with
  | RLit c => match s with x :: t => if x =? c then [([], t)] else [] | [] => [] end
  | RClass rs => match s with x :: t => if in_class rs x then [([], t)] else [] | [] => [] end
  | RBeginText => if (length s =? n)%nat then [([], s)] else []
  | REndText => match s with [] => [([], [])] | _ => [] end
  | REmpty => [([], s)]
  | RCat a b =>
    flat_map (fun '(c1, s1) => map (fun '(c2, s2) => (c1 ++ c2, s2)) (parses n b s1))
      (parses n a s)
  | RAlt a b => parses n a s ++ parses n b s
  | RStar a => star_parses (parses n a) (length s) s
  | RPlus a =>
    flat_map (fun '(c1, s1) =>
      map (fun '(c2, s2) => (c1 ++ c2, s2)) (star_parses (parses n a) (length s1) s1))
      (parses n a s)
  | RQuest a => parses n a s ++ [([], s)]
  | RCap nm a =>
    map (fun '(c, s1) => ((nm, firstn (length s - length s1) s) :: c, s1)) (parses n a s)
  end.

Fixpoint first_match (n : nat) (r : re) (s : list rune) (k : nat) : option caps :=
  match hd_error (parses n r s) with
  | Some (c, _) => Some c
  | None =>
    match k, s with
    | S k', _ :: s' => first_match n r s' k'
    | _, _ => None
    end
  end.

(** [Regexp.FindStringSubmatch]: the leftmost match, and among the
    matches starting there the first in priority order (its captures). *)
Definition FindStringSubmatch (r : re) (s : list rune) : option caps :=
  first_match (length s) r s (length s).

(** [Regexp.MatchString] *)
Definition MatchString (r : re) (s : list rune) : bool :=
  match FindStringSubmatch r s with Some _ => true | None => false end.

(** The map built by [getGroupVals]: a group with a name and a non-empty
    match is stored under its name, later groups overwriting earlier ones;
    a missing key reads as the empty string. *)
Definition group_val (cs : caps) (k : list rune) : list rune :=
  fold_left (fun acc '(nm, v) =>
    if negb (rune_eqs v []) && negb (rune_eqs nm []) && rune_eqs nm k then v else acc) cs [].

(** ** Package [number]: the regexp texts of [number.go] *)

Local Open Scope string_scope.

Definition prefix2 : string := "#b(#[ie])?|(#[ie])?#b".
Definition prefix8 : string := "#o(#[ie])?|(#[ie])?#o".
Definition prefix10 : string := "(#d)?(#[ie])?|(#[ie])?(#d)?".
Definition prefix16 : string := "#x(#[ie])?|(#[ie])?#x".

Definition uinteger2 : string := "[0-1]+#*".
Definition uinteger8 : string := "[0-7]+#*".
Definition uinteger10 : string := "[0-9]+#*".
Definition uinteger16 : string := "[0-9a-f]+#*".

Definition decimal10 : string :=
  "(\.?" ++ uinteger10 ++ "|[0-9]+\.[0-9]*#*" ++ "|[0-9]+#+\.#*)" ++ "([esfdl][+-]?[0-9]+)?".

Definition ureal2 : string := "(?P<dividend>" ++ uinteger2 ++ ")(/(?P<divisor>" ++ uinteger2 ++ "))?".
Definition ureal8 : string := "(?P<dividend>" ++ uinteger8 ++ ")(/(?P<divisor>" ++ uinteger8 ++ "))?".
Definition ureal10 : string := "(?P<dividend>" ++ uinteger10 ++ ")(/(?P<divisor>" ++ uinteger10 ++ "))?|(?P<decimal>" ++ decimal10 ++ ")".
Definition ureal16 : string := "(?P<dividend>" ++ uinteger16 ++ ")(/(?P<divisor>" ++ uinteger16 ++ "))?".

Definition real2 : string := "(?P<realSign>[+-]?)(?P<realUreal>" ++ ureal2 ++ ")".
Definition real8 : string := "(?P<realSign>[+-]?)(?P<realUreal>" ++ ureal8 ++ ")".
Definition real10 : string := "(?P<realSign>[+-]?)(?P<realUreal>" ++ ureal10 ++ ")".
Definition real16 : string := "(?P<realSign>[+-]?)(?P<realUreal>" ++ ureal16 ++ ")".

Definition complex2 : string := "(?P<complexReal>" ++ real2 ++ ")(@(?P<complexImag>" ++ real2 ++ ")|(?P<complexImagSign>[+-])(?P<complexImag>" ++ ureal2 ++ ")?i" ++ ")?|(?P<complexImagSign>[+-])(?P<complexImag>" ++ ureal2 ++ ")?i".
Definition complex8 : string := "(?P<complexReal>" ++ real8 ++ ")(@(?P<complexImag>" ++ real8 ++ ")|(?P<complexImagSign>[+-])(?P<complexImag>" ++ ureal8 ++ ")?i" ++ ")?|(?P<complexImagSign>[+-])(?P<complexImag>" ++ ureal8 ++ ")?i".
Definition complex10 : string := "(?P<complexReal>" ++ real10 ++ ")(@(?P<complexImag>" ++ real10 ++ ")|(?P<complexImagSign>[+-])(?P<complexImag>" ++ ureal10 ++ ")?i" ++ ")?|(?P<complexImagSign>[+-])(?P<complexImag>" ++ ureal10 ++ ")?i".
Definition complex16 : string := "(?P<complexReal>" ++ real16 ++ ")(@(?P<complexImag>" ++ real16 ++ ")|(?P<complexImagSign>[+-])(?P<complexImag>" ++ ureal16 ++ ")?i" ++ ")?|(?P<complexImagSign>[+-])(?P<complexImag>" ++ ureal16 ++ ")?i".

Definition number2 : string := "(?P<prefix>" ++ prefix2 ++ ")(?P<complex>" ++ complex2 ++ ")".
Definition number8 : string := "(?P<prefix>" ++ prefix8 ++ ")(?P<complex>" ++ complex8 ++ ")".
Definition number10 : string := "(?P<prefix>" ++ prefix10 ++ ")(?P<complex>" ++ complex10 ++ ")".
Definition number16 : string := "(?P<prefix>" ++ prefix16 ++ ")(?P<complex>" ++ complex16 ++ ")".

Definition number : string := number2 ++ "|" ++ number8 ++ "|" ++ number10 ++ "|" ++ number16.

Local Close Scope string_scope.

Definition typeNumber : Z := 0.
Definition typeComplex : Z := 1.
Definition typeReal : Z := 2.
Definition typeUreal : Z := 3.
Definition baseN : Z := 0.
Definition base2 : Z := 2.
Definition base8 : Z := 8.
Definition base10 : Z := 10.
Definition base16 : Z := 16.

(** The table [regexps] filled by [init]; a missing entry is [None]. *)
Definition regexps (t b : Z) : option re :=
  if t =? typeNumber then (if b =? baseN then compileRegexp number else None)
  else if t =? typeComplex then
    (if b =? base2 then compileRegexp complex2 else if b =? base8 then compileRegexp complex8
     else if b =? base10 then compileRegexp complex10 else if b =? base16 then compileRegexp complex16 else None)
  else if t =? typeReal then
    (if b =? base2 then compileRegexp real2 else if b =? base8 then compileRegexp real8
     else if b =? base10 then compileRegexp real10 else if b =? base16 then compileRegexp real16 else None)
  else if t =? typeUreal then
    (if b =? base2 then compileRegexp ureal2 else if b =? base8 then compileRegexp ureal8
     else if b =? base10 then compileRegexp ureal10 else if b =? base16 then compileRegexp ureal16 else None)
  else None.

Definition number_re : option re := regexps typeNumber baseN.

Definition IsNumberLit (l : list rune) : bool :=
  match number_re with Some r => MatchString r l | None => false end.

(** ** Package [strconv], on the inputs the analyzer gives it *)

Local Open Scope float_scope.

(** Exact conversion of an integer below 2^53. *)
Fixpoint float_of_pos (p : positive) : float :=
  match p with
  | xH => one
  | xO q => two * float_of_pos q
  | xI q => two * float_of_pos q + one
  end.

Definition float_of_small_Z (z : Z) : float :=
  match z with Zpos p => float_of_pos p | _ => zero end.

(** [2^k] for [-1074 <= k <= 1023], exactly. *)
Definition pow2f (k : Z) : float :=
  if (0 <=? k)%Z then Nat.iter (Z.to_nat k) (fun x => two * x) one
  else Nat.iter (Z.to_nat (- k)) (fun x => x / two) one.

Local Close Scope float_scope.

(** The binary64 value nearest to [num / den] ([num >= 0], [den > 0]), ties
    to even; [None] when it rounds beyond the largest finite value. *)
Definition round_binary64 (num den : Z) : option float :=
  if num =? 0 then Some zero else
  let e0 := Z.log2 num - Z.log2 den in
  let ge := if 0 <=? e0 then den * 2 ^ e0 <=? num else den <=? num * 2 ^ (- e0) in
  let e := if ge then e0 else e0 - 1 in
  let k := Z.max (e - 52) (-1074) in
  let '(q, r, d) :=
    if 0 <=? k then (num / (den * 2 ^ k), num mod (den * 2 ^ k), den * 2 ^ k)
    else ((num * 2 ^ (- k)) / den, (num * 2 ^ (- k)) mod den, den) in
  let q1 := if (d <? 2 * r) || ((2 * r =? d) && Z.odd q) then q + 1 else q in
  let '(q2, k2) := if q1 =? 2 ^ 53 then (2 ^ 52, k + 1) else (q1, k) in
  if 971 <? k2 then None else Some (PrimFloat.mul (float_of_small_Z q2) (pow2f k2)).

(** [float64(v)] for an [int64] value [v >= 0]. *)
Definition float64_of_int (v : Z) : float :=
  match round_binary64 v 1 with Some f => f | None => infinity end.

Definition maxUint64 : Z := 2 ^ 64 - 1.

(** [lower(c)] on a byte. *)
Definition lower (c : Z) : Z := Z.lor c 32.

(** The loop of [strconv.ParseUint(s, base, 64)] over the bytes of [s];
    a rune of 128 or more starts with a byte that is neither a digit nor a
    letter. *)
Fixpoint parseUint_loop (base cutoff maxVal n : Z) (s : list rune) : Z * option NumErr :=
  match s with
  | [] => (n, None)
  | c :: s' =>
    let d := if (rn "0" <=? c) && (c <=? rn "9") then Some (c - rn "0")
             else if (c <? 128) && (rn "a" <=? lower c) && (lower c <=? rn "z")
             then Some (lower c - rn "a" + 10) else None in
    match d with
    | None => (0, Some ErrSyntax)
    | Some d =>
      if base <=? d then (0, Some ErrSyntax)
      else if cutoff <=? n then (maxVal, Some ErrRange)
      else let n1 := n * base + d in
           if maxVal <? n1 then (maxVal, Some ErrRange)
           else parseUint_loop base cutoff maxVal n1 s'
    end
  end.

(** [strconv.ParseUint(s, base, 64)] for [2 <= base <= 36] (the analyzer
    never asks for base 0, which is left out). *)
Definition ParseUint (s : list rune) (base : Z) : Z * option NumErr :=
  match s with
  | [] => (0, Some ErrSyntax)
  | _ =>
    if (2 <=? base) && (base <=? 36) then
      parseUint_loop base (maxUint64 / base + 1) maxUint64 0 s
    else (0, Some ErrBase)
  end.

(** [strconv.ParseInt(s, base, 0)] on a 64-bit platform. *)
Definition ParseInt (s : list rune) (base : Z) : Z * option NumErr :=
  match s with
  | [] => (0, Some ErrSyntax)
  | c :: s1 =>
    let '(neg, s') := if c =? rn "+" then (false, s1)
                      else if c =? rn "-" then (true, s1) else (false, s) in
    let '(un, err) := ParseUint s' base in
    match err with
    | Some e => if match e with ErrRange => false | _ => true end then (0, Some e)
                else let cutoff := 2 ^ 63 in
                     if negb neg && (cutoff <=? un) then (cutoff - 1, Some ErrRange)
                     else if neg && (cutoff <? un) then (- cutoff, Some ErrRange)
                     else (if neg then - un else un, None)
    | None => let cutoff := 2 ^ 63 in
              if negb neg && (cutoff <=? un) then (cutoff - 1, Some ErrRange)
              else if neg && (cutoff <? un) then (- cutoff, Some ErrRange)
              else (if neg then - un else un, None)
    end
  end.

Definition is_digit (c : rune) : bool := (rn "0" <=? c) && (c <=? rn "9").

(** [commonPrefixLenIgnoreCase(s, prefix)] *)
Fixpoint commonPrefixLenIgnoreCase (s prefix : list rune) : nat :=
  match s, prefix with
  | c :: s', p :: prefix' =>
    let c' := if (rn "A" <=? c) && (c <=? rn "Z") then c + 32 else c in
    if c' =? p then S (commonPrefixLenIgnoreCase s' prefix') else O
  | _, _ => O
  end.

(** [special(s)]: infinities and NaN, with the length consumed. *)
Definition special (s : list rune) : option (float * nat) :=
  let inf (neg : bool) (nsign : nat) (t : list rune) :=
    let n := commonPrefixLenIgnoreCase t (str "infinity") in
    let n := if (3 <? n)%nat && (n <? 8)%nat then 3%nat else n in
    if (n =? 3)%nat || (n =? 8)%nat
    then Some ((if neg then neg_infinity else infinity), (nsign + n)%nat) else None in
  match s with
  | [] => None
  | c :: t =>
    if (c =? rn "+") || (c =? rn "-") then inf (c =? rn "-") 1%nat t
    else if (c =? rn "i") || (c =? rn "I") then inf false 0%nat s
    else if (c =? rn "n") || (c =? rn "N") then
      (if (commonPrefixLenIgnoreCase s (str "nan") =? 3)%nat then Some (nan, 3%nat) else None)
    else None
  end.

(** The mantissa loop of [readFloat]: digits (their value, count [nd]
    without leading zeros, and decimal point position [dp]) up to the first
    rune that is neither a digit nor the first ['.']. *)
Fixpoint readMantissa (s : list rune) (sawdot sawdigits : bool) (nd dp D : Z)
    : list rune * bool * bool * Z * Z * Z :=
  match s with
  | c :: s' =>
    if c =? rn "." then
      if sawdot then (s, sawdot, sawdigits, nd, dp, D)
      else readMantissa s' true sawdigits nd nd D
    else if is_digit c then
      if (c =? rn "0") && (nd =? 0) then readMantissa s' sawdot true nd (dp - 1) D
      else readMantissa s' sawdot true (nd + 1) dp (D * 10 + (c - rn "0"))
    else (s, sawdot, sawdigits, nd, dp, D)
  | [] => (s, sawdot, sawdigits, nd, dp, D)
  end.

(** The exponent digits of [readFloat]: accumulation stops growing once
    the exponent reaches 10000. *)
Fixpoint readExpDigits (s : list rune) (e : Z) : list rune * Z :=
  match s with
  | c :: s' =>
    if is_digit c then readExpDigits s' (if e <? 10000 then e * 10 + (c - rn "0") else e)
    else (s, e)
  | [] => (s, e)
  end.

(** The part of [readFloat] after the sign, for a decimal mantissa. *)
Definition readDecimal (neg : bool) (s1 : list rune) : option (bool * Z * Z * Z * list rune) :=
  let '(s2, sawdot, sawdigits, nd, dp, D) := readMantissa s1 false false 0 0 0 in
  if negb sawdigits then None else
  let dp := if sawdot then dp else nd in
  match s2 with
  | c :: s3 =>
    if lower c =? rn "e" then
      match s3 with
      | [] => None
      | c' :: s4 =>
        let '(esign, s5) := if c' =? rn "+" then (1, s4)
                            else if c' =? rn "-" then (-1, s4) else (1, s3) in
        match s5 with
        | d :: _ =>
          if is_digit d then
            let '(s6, e) := readExpDigits s5 0 in
            Some (neg, D, dp + e * esign - nd, dp + e * esign, s6)
          else None
        | [] => None
        end
      end
    else Some (neg, D, dp - nd, dp, s2)
  | [] => Some (neg, D, dp - nd, dp, s2)
  end.

(** [readFloat] for decimal mantissas: the sign, the significant digits as
    an integer [D], the decimal exponent [x] of the value [D * 10^x], the
    decimal point position [dp] and the unread rest; [None] when [readFloat]
    reports failure.  Hexadecimal mantissas and [_] separators, which the
    decimal handler never passes, are left out and read as failures. *)
Definition readFloat (s : list rune) : option (bool * Z * Z * Z * list rune) :=
  let '(neg, s1) := match s with
                    | c :: t => if c =? rn "+" then (false, t)
                                else if c =? rn "-" then (true, t) else (false, s)
                    | [] => (false, s)
                    end in
  let hex := match s1 with
             | z :: x :: _ :: _ => (z =? rn "0") && (lower x =? rn "x")
             | _ => false
             end in
  match s1 with
  | [] => None
  | _ => if hex || existsb (fun c => c =? rn "_") s then None else readDecimal neg s1
  end.

(** [strconv.ParseFloat(s, 64)]: the correctly rounded value, with
    [ErrRange] (and an infinity) when it overflows; [floatBits] settles
    values with [dp > 310] (overflow) and [dp < -330] (zero) at once. *)
Definition ParseFloat (s : list rune) : float * option NumErr :=
  match special s with
  | Some (v, n) => if (n =? length s)%nat then (v, None) else (zero, Some ErrSyntax)
  | None =>
    match readFloat s with
    | None => (zero, Some ErrSyntax)
    | Some (neg, D, x, dp, rest) =>
      match rest with
      | _ :: _ => (zero, Some ErrSyntax)
      | [] =>
        let sgn (f : float) := if neg then PrimFloat.opp f else f in
        if D =? 0 then (sgn zero, None)
        else if 310 <? dp then (sgn infinity, Some ErrRange)
        else if dp <? -330 then (sgn zero, None)
        else
          let r := if 0 <=? x then round_binary64 (D * 10 ^ x) 1
                   else round_binary64 D (10 ^ (- x)) in
          match r with
          | Some f => (sgn f, None)
          | None => (sgn infinity, Some ErrRange)
          end
      end
    end
  end.

(** ** Package [number] *)

Record Number := mkNumber {
  literal : list rune;
  complex : float * float;
  inexact : bool;
  isNumber : bool;
  radixVal : Z
}.

Definition set_inexact (n : Number) : Number :=
  mkNumber n.(literal) n.(complex) true n.(isNumber) n.(radixVal).
Definition set_complex (c : float * float) (n : Number) : Number :=
  mkNumber n.(literal) c n.(inexact) n.(isNumber) n.(radixVal).
Definition set_radixVal (b : Z) (n : Number) : Number :=
  mkNumber n.(literal) n.(complex) n.(inexact) n.(isNumber) b.

Definition NewFromLiteral (l : list rune) : Number :=
  mkNumber l (zero, zero) false (IsNumberLit l) 0.

Definition NewFromValue (value : float * float) (inexact : bool) : Number :=
  mkNumber [] value inexact true 10.

(** The map returned by [getGroupVals], read with [group_val]; indexing the
    table at a missing entry dereferences a nil [*regexp.Regexp]. *)
Definition getGroupVals (l : list rune) (t b : Z) : Res caps :=
  match regexps t b with
  | None => Panic (PRuntime (str "invalid memory address or nil pointer dereference"))
  | Some r => match FindStringSubmatch r l with Some cs => Ok cs | None => Ok [] end
  end.

Definition getSign (l : list rune) : float :=
  if rune_eqs l (str "-") then PrimFloat.opp one else one.

Definition parsePrefix (l : list rune) (n : Number) : Number :=
  let n := set_radixVal (if ContainsRune l (rn "b") then base2
                         else if ContainsRune l (rn "o") then base8
                         else if ContainsRune l (rn "x") then base16
                         else base10) n in
  if ContainsRune l (rn "i") then set_inexact n else n.

Definition parseUint (l : list rune) (n : Number) : Res (float * Number) :=
  let '(l, n) := if ContainsRune l (rn "#")
                 then (ReplaceAllRune l (rn "#") (rn "0"), set_inexact n) else (l, n) in
  match ParseInt l n.(radixVal) with
  | (_, Some e) => Panic (PNumError (str "ParseInt") e)
  | (v, None) =>
    Ok (if v <? 0 then PrimFloat.opp (float64_of_int (- v)) else float64_of_int v, n)
  end.

(** The rune map of [parseDecimal]. *)
Definition decimal_map (r : rune) : rune :=
  if (r =? rn "s") || (r =? rn "f") || (r =? rn "d") || (r =? rn "l") then rn "e"
  else if r =? rn "#" then rn "0" else r.

Definition parseDecimal (l : list rune) (n : Number) : Res (float * Number) :=
  let n := if ContainsRune l (rn "#") then set_inexact n else n in
  let l := map decimal_map l in
  let n := if ContainsRune l (rn ".") || ContainsRune l (rn "e") then set_inexact n else n in
  match ParseFloat l with
  | (_, Some e) => Panic (PNumError (str "ParseFloat") e)
  | (v, None) => Ok (v, n)
  end.

Definition parseUreal (l : list rune) (n : Number) : Res (float * Number) :=
  gv <- getGroupVals l typeUreal n.(radixVal) ;;
  if negb (rune_eqs (group_val gv (str "decimal")) []) then
    parseDecimal (group_val gv (str "decimal")) n
  else
    '(dividend, n) <- parseUint (group_val gv (str "dividend")) n ;;
    '(divisor, n) <- (if ContainsRune l (rn "/")
                      then parseUint (group_val gv (str "divisor")) n else Ok (one, n)) ;;
    Ok (PrimFloat.div dividend divisor, n).

Definition parseReal (l : list rune) (n : Number) : Res (float * Number) :=
  match l with
  | [] => Ok (zero, n)
  | _ =>
    gv <- getGroupVals l typeReal n.(radixVal) ;;
    '(ureal, n) <- parseUreal (group_val gv (str "realUreal")) n ;;
    Ok (PrimFloat.mul (getSign (group_val gv (str "realSign"))) ureal, n)
  end.

(** [1e-52] as a float64 constant. *)
Definition eps52 : float := Eval cbv in match round_binary64 1 (10 ^ 52) with Some f => f | None => zero end.

Section Analyzer.

(** [math.Sin] and [math.Cos] are left abstract. *)
Variables math_Sin math_Cos : float -> float.

Definition parseComplex (l : list rune) (n : Number) : Res Number :=
  gv <- getGroupVals l typeComplex n.(radixVal) ;;
  '(rVal, n) <- parseReal (group_val gv (str "complexReal")) n ;;
  if ContainsRune l (rn "@") then
    '(iRaw, n) <- parseReal (group_val gv (str "complexImag")) n ;;
    let sin := math_Sin iRaw in
    let n := if PrimFloat.ltb eps52 (PrimFloat.abs sin) then set_inexact n else n in
    Ok (set_complex (PrimFloat.mul rVal (math_Cos iRaw), PrimFloat.mul rVal sin) n)
  else if ContainsRune l (rn "i") then
    '(iRaw, n) <- (if negb (rune_eqs (group_val gv (str "complexImag")) [])
                   then parseUreal (group_val gv (str "complexImag")) n else Ok (one, n)) ;;
    Ok (set_complex (rVal, PrimFloat.mul (getSign (group_val gv (str "complexImagSign"))) iRaw) n)
  else Ok (set_complex (rVal, zero) n).

Definition Parse (n : Number) : Res Number :=
  gv <- getGroupVals n.(literal) typeNumber baseN ;;
  let n := parsePrefix (group_val gv (str "prefix")) n in
  parseComplex (group_val gv (str "complex")) n.

End Analyzer.

(** ** Package [lexer]

    The [text/scanner] source is the list of runes it decodes from the
    input; [Peek] and [Next] give [scanner.EOF] at its end.  Byte order
    marks and invalid UTF-8, which the scanner handles itself, are not
    modelled. *)

Module Lexer.

Inductive TokenType :=
  LPAREN | RPAREN | HPAREN | SQUOTE | BQUOTE | COMMA | COMMAT | DOT
| BOOL | CHAR | IDENT | STRING | NUMBER.

Record Token := mkToken { Type_ : TokenType; Literal : list rune }.

(** [Token{}] *)
Definition Token0 : Token := mkToken LPAREN [].

Inductive Error :=
  EOF | INVALID_DOT | INVALID_HASH | INVALID_IDENT | INVALID_NUMBER
| UNEXPECTED_EOF | UNKNOWN_NCHAR.

Definition Peek (s : list rune) : rune :=
  match s with [] => scanner_EOF | c :: _ => c end.

Definition Next (s : list rune) : rune * list rune :=
  match s with [] => (scanner_EOF, []) | c :: t => (c, t) end.

(** The rune [strings.Builder.WriteRune] and [string(r)] write: [r] when
    it is a valid code point, U+FFFD otherwise. *)
Definition valid_rune (r : rune) : bool :=
  (0 <=? r) && (r <=? 1114111) && negb ((55296 <=? r) && (r <=? 57343)).

Definition WriteRune (r : rune) : rune := if valid_rune r then r else 65533.

(** The double quote and the backslash. *)
Definition dquote : rune := 34.
Definition backslash : rune := 92.

Definition isNewline (r : rune) : bool := r =? rn "010".
Definition isWhitespace (r : rune) : bool := (r =? rn " ") || isNewline r.
Definition isComment (r : rune) : bool := r =? rn ";".
Definition isAtmosphere (r : rune) : bool := isWhitespace r || isComment r.
Definition isDelimiter (r : rune) : bool :=
  isWhitespace r || ContainsRune [rn "("; rn ")"; rn ";"; dquote] r.

Definition in_range (a b : ascii) (r : rune) : bool := (rn a <=? r) && (r <=? rn b).

Definition isIdentifierInitial (r : rune) : bool :=
  in_range "a" "z" r || in_range "A" "Z" r || ContainsRune (str "!$%&*/:<=>?^_~") r.

Definition isIdentifierSubsequent (r : rune) : bool :=
  isIdentifierInitial r || in_range "0" "9" r || ContainsRune (str "+-.@") r.

(** [skipAtmosphere]; [None] when it never returns (a comment that no
    newline ends: the inner loop peeks [scanner.EOF] for ever). *)
Fixpoint skipAtmosphere (s : list rune) : option (list rune) :=
  match s with
  | [] => Some []
  | c :: t => if isWhitespace c then skipAtmosphere t
              else if isComment c then skipComment t
              else Some s
  end
with skipComment (s : list rune) : option (list rune) :=
  match s with
  | [] => None
  | c :: t => if isNewline c then skipAtmosphere t else skipComment t
  end.

(** The loop [for r := Peek(); !isDelimiter(r) && r != EOF; ...] reading
    runes into the builder. *)
Fixpoint scanRest (s : list rune) : list rune * list rune :=
  match s with
  | [] => ([], [])
  | c :: t => if isDelimiter c then ([], s)
              else let '(w, s') := scanRest t in (WriteRune c :: w, s')
  end.

Definition Result := ((Token * option Error) * list rune)%type.

Definition scanNchar (prefix : rune) (s : list rune) : Result :=
  let '(w, s') := scanRest s in
  let sb := WriteRune prefix :: w in
  if negb (rune_eqs sb (str "space")) && negb (rune_eqs sb (str "newline"))
  then ((Token0, Some UNKNOWN_NCHAR), s')
  else ((mkToken CHAR (rn "#" :: backslash :: sb), None), s').

Definition scanNumber (prefix : rune) (s : list rune) : Result :=
  let '(w, s') := scanRest s in
  let sb := WriteRune prefix :: w in
  if negb (isNumber (NewFromLiteral sb)) then ((Token0, Some INVALID_NUMBER), s')
  else ((mkToken NUMBER sb, None), s').

(** The loop of [scanString] from the pair [(p, c)]: the runes written
    before the closing quote, or [None] at [scanner.EOF]. *)
Fixpoint scanString_loop (p : rune) (s : list rune) : option (list rune) * list rune :=
  match s with
  | [] => (None, [])
  | c :: t =>
    if negb (p =? backslash) && (c =? dquote) then (Some [], t)
    else let '(r, s') := scanString_loop c t in (option_map (cons (WriteRune c)) r, s')
  end.

Definition scanString (s : list rune) : Result :=
  match scanString_loop dquote s with
  | (Some lit, s') => ((mkToken STRING lit, None), s')
  | (None, s') => ((Token0, Some UNEXPECTED_EOF), s')
  end.

Fixpoint scanIdentifier_loop (s : list rune) : option (list rune) * list rune :=
  match s with
  | [] => (Some [], [])
  | c :: t =>
    if isDelimiter c then (Some [], s)
    else if negb (isIdentifierSubsequent c) then (None, s)
    else let '(r, s') := scanIdentifier_loop t in (option_map (cons (WriteRune c)) r, s')
  end.

Definition scanIdentifier (initial : rune) (s : list rune) : Result :=
  if negb (isIdentifierInitial initial) then ((Token0, Some INVALID_IDENT), s) else
  match scanIdentifier_loop s with
  | (Some w, s') => ((mkToken IDENT (WriteRune initial :: w), None), s')
  | (None, s') => ((Token0, Some INVALID_IDENT), s')
  end.

(** The [switch] of [NextToken] on the input left by [skipAtmosphere]:
    the token, the error and the unread input. *)
Definition scanToken (s0 : list rune) : Result :=
    let '(r, s1) := Next s0 in
    if r =? scanner_EOF then ((Token0, Some EOF), s1)
    else if r =? rn "(" then ((mkToken LPAREN (str "("), None), s1)
    else if r =? rn ")" then ((mkToken RPAREN (str ")"), None), s1)
    else if r =? rn "'" then ((mkToken SQUOTE (str "'"), None), s1)
    else if r =? rn "`" then ((mkToken BQUOTE (str "`"), None), s1)
    else if r =? rn "," then
      (if Peek s1 =? rn "@" then ((mkToken COMMAT (str ",@"), None), snd (Next s1))
       else ((mkToken COMMA (str ","), None), s1))
    else if r =? rn "." then
      (if isDelimiter (Peek s1) then ((mkToken DOT (str "."), None), s1)
       else if in_range "0" "9" (Peek s1) then scanNumber r s1
       else let '(c1, s2) := Next s1 in
            if c1 =? rn "." then
              let '(c2, s3) := Next s2 in
              if c2 =? rn "." then ((mkToken IDENT (str "..."), None), s3)
              else ((Token0, Some INVALID_DOT), s3)
            else ((Token0, Some INVALID_DOT), s2))
    else if r =? dquote then scanString s1
    else if r =? rn "#" then
      (let p := Peek s1 in
       if p =? rn "(" then
         let '(c, s2) := Next s1 in ((mkToken HPAREN [rn "#"; WriteRune c], None), s2)
       else if (p =? rn "t") || (p =? rn "f") then
         let '(c, s2) := Next s1 in ((mkToken BOOL [rn "#"; WriteRune c], None), s2)
       else if p =? backslash then
         let s2 := snd (Next s1) in
         let '(char, s3) := Next s2 in
         if isDelimiter (Peek s3) then ((mkToken CHAR [rn "#"; backslash; WriteRune char], None), s3)
         else scanNchar char s3
       else if ContainsRune (str "iebodx") p then scanNumber r s1
       else ((Token0, Some INVALID_HASH), s1))
    else if (r =? rn "+") || (r =? rn "-") then
      (if isDelimiter (Peek s1) then ((mkToken IDENT [WriteRune r], None), s1)
       else scanNumber r s1)
    else if in_range "0" "9" r then scanNumber r s1
    else scanIdentifier r s1.

(** [NextToken]; [None] when [skipAtmosphere] never returns. *)
Definition NextToken (s : list rune) : option Result :=
  match skipAtmosphere s with
  | None => None
  | Some s0 => Some (scanToken s0)
  end.

(** Calling [NextToken] until it reports [EOF], as the lexer test does,
    stopping at the first other error. *)
Inductive Outcome :=
| Tokens (ts : list Token)
| Failed (e : Error) (ts : list Token)
| Diverges
| NoFuel.

Definition cons_outcome (t : Token) (o : Outcome) : Outcome :=
  match o with
  | Tokens ts => Tokens (t :: ts)
  | Failed e ts => Failed e (t :: ts)
  | o => o
  end.

Fixpoint Tokenize (fuel : nat) (s : list rune) : Outcome :=
  match fuel with
  | O => NoFuel
  | S f =>
    match NextToken s with
    | None => Diverges
    | Some ((t, None), s') => cons_outcome t (Tokenize f s')
    | Some ((_, Some EOF), _) => Tokens []
    | Some ((_, Some e), _) => Failed e []
    end
  end.

End Lexer.

(** ** Package [parser] (the version that parses numbers) *)

Module Parser.

Import Lexer.

Inductive AtomType := BOOL | NUMBER | CHAR | STRING | SYMBOL | VECTOR.

Definition AtomType_eqb (a b : AtomType) : bool :=
  match a, b with
  | BOOL, BOOL | NUMBER, NUMBER | CHAR, CHAR | STRING, STRING
  | SYMBOL, SYMBOL | VECTOR, VECTOR => true
  | _, _ => false
  end.

Local Set Warnings "-register-all".

(** The dynamic value stored in an [Atom]'s [Value]. *)
Inductive Sexpr :=
| Atom (Type_ : AtomType) (Value : AtomValue)
| Expr (Car Cdr : option Sexpr)
with AtomValue :=
| VBool (b : bool)
| VNumber (n : Number)
| VRune (r : rune)
| VString (s : list rune)
| VVector (v : list (option Sexpr)).

(** Empty Pair: [&Expr{Car: nil, Cdr: nil}]. *)
Definition EmptyPair : Sexpr := Expr None None.

(** [abbrevToIdent[lit]], the zero string for a missing key. *)
Definition abbrevToIdent (lit : list rune) : list rune :=
  if rune_eqs lit (str "'") then str "quote"
  else if rune_eqs lit (str "`") then str "quasiquote"
  else if rune_eqs lit (str ",") then str "unquote"
  else if rune_eqs lit (str ",@") then str "unquote-splicing"
  else [].

(** UTF-8 encoding of a Go string held as runes. *)
Definition encode_rune (r : rune) : list Z :=
  let r := WriteRune r in
  if r <? 128 then [r]
  else if r <? 2048 then [192 + r / 64; 128 + r mod 64]
  else if r <? 65536 then [224 + r / 4096; 128 + (r / 64) mod 64; 128 + r mod 64]
  else [240 + r / 262144; 128 + (r / 4096) mod 64; 128 + (r / 64) mod 64; 128 + r mod 64].

Definition bytes (s : list rune) : list Z := flat_map encode_rune s.

Definition index_panic {A} : Res A := Panic (PRuntime (str "index out of range")).
Definition slice_panic {A} : Res A := Panic (PRuntime (str "slice bounds out of range")).
Definition nil_panic {A} : Res A :=
  Panic (PRuntime (str "invalid memory address or nil pointer dereference")).

Definition parseBool (literal : list rune) : Res bool :=
  match nth_error (bytes literal) 1 with
  | Some b => Ok (b =? rn "t")
  | None => index_panic
  end.

(** The rune that [for i, c := range literal] meets at byte offset 2, or 0. *)
Fixpoint rune_at_offset2 (off : nat) (s : list rune) : rune :=
  match s with
  | [] => 0
  | c :: t => if (off =? 2)%nat then WriteRune c
              else rune_at_offset2 (off + length (encode_rune c)) t
  end.

Definition parseChar (literal : list rune) : Res rune :=
  let b := bytes literal in
  if (length b <? 2)%nat then slice_panic else
  if rune_eqs (skipn 2 b) (bytes (str "space")) then Ok (rn " ")
  else if rune_eqs (skipn 2 b) (bytes (str "newline")) then Ok (rn "010")
  else Ok (rune_at_offset2 0 literal).

Definition at_ (ts : list Token) (i : nat) : Res Token :=
  match nth_error ts i with Some t => Ok t | None => index_panic end.

Definition is_type (t : TokenType) (tok : Token) : bool :=
  match t, Type_ tok with
  | LPAREN, LPAREN | RPAREN, RPAREN | HPAREN, HPAREN | SQUOTE, SQUOTE
  | BQUOTE, BQUOTE | COMMA, COMMA | COMMAT, COMMAT | DOT, DOT
  | Lexer.BOOL, Lexer.BOOL | Lexer.CHAR, Lexer.CHAR | IDENT, IDENT
  | Lexer.STRING, Lexer.STRING | Lexer.NUMBER, Lexer.NUMBER => true
  | _, _ => false
  end.

(** The cells [parseList] allocates and links: [value] at address 0, then
    one [&Expr{}] per datum.  A [Cdr] is nil, one of these cells, or a
    finished S-expression returned by [ParseNextNode]. *)
Inductive Link := LNil | LCell (a : nat) | LSexpr (s : Sexpr).

Record Cell := mkCell { car : option Sexpr; cdr : Link }.

Definition heap := list Cell.

(** Writing a field of the cell at address [a]. *)
Fixpoint update (h : heap) (a : nat) (f : Cell -> Cell) : heap :=
  match h, a with
  | [], _ => []
  | c :: t, O => f c :: t
  | c :: t, S a' => c :: update t a' f
  end.

Definition set_car (h : heap) (a : nat) (x : option Sexpr) : heap :=
  update h a (fun c => mkCell x (cdr c)).

Definition set_cdr (h : heap) (a : nat) (l : Link) : heap :=
  update h a (fun c => mkCell (car c) l).

Definition link_of (x : option Sexpr) : Link :=
  match x with None => LNil | Some s => LSexpr s end.

(** The S-expression the cell at address [a] stands for; cells link only to
    cells allocated after them, so [length h] steps reach every one. *)
Fixpoint read_cell (fuel : nat) (h : heap) (a : nat) : Sexpr :=
  match fuel with
  | O => EmptyPair
  | S f =>
    match nth_error h a with
    | None => EmptyPair
    | Some c =>
      Expr (car c) (match cdr c with
                    | LNil => None
                    | LCell b => Some (read_cell f h b)
                    | LSexpr s => Some s
                    end)
    end
  end.

Definition conversion_panic {A} : Res A := Panic (PRuntime (str "interface conversion")).

(** [==] on [complex128]. *)
Definition complex_eqb (a b : float * float) : bool :=
  PrimFloat.eqb (fst a) (fst b) && PrimFloat.eqb (snd a) (snd b).

(** [a.Equals(s)], for a non-nil receiver [a]; [s] is [None] for a nil
    interface.  A nil element of the receiver's vector is a method call on a
    nil interface. *)
Fixpoint Equals (a : Sexpr) (s : option Sexpr) {struct a} : Res bool :=
  match a with
  | Atom t v =>
    match s with
    | Some (Atom t2 v2) =>
      if negb (AtomType_eqb t t2) then Ok false else
      match t with
      | BOOL => match v, v2 with VBool x, VBool y => Ok (Bool.eqb x y) | _, _ => conversion_panic end
      | CHAR => match v, v2 with VRune x, VRune y => Ok (x =? y) | _, _ => conversion_panic end
      | STRING | SYMBOL =>
        match v, v2 with VString x, VString y => Ok (rune_eqs x y) | _, _ => conversion_panic end
      | VECTOR =>
        match v, v2 with
        | VVector aVector, VVector a2Vector =>
          if negb (length aVector =? length a2Vector)%nat then Ok false else
          (fix loop (xs ys : list (option Sexpr)) : Res bool :=
             match xs, ys with
             | x :: xs', y :: ys' =>
               match x with
               | None => nil_panic
               | Some x => r <- Equals x y ;; if r then loop xs' ys' else Ok false
               end
             | _, _ => Ok true
             end) aVector a2Vector
        | _, _ => conversion_panic
        end
      | NUMBER =>
        match v, v2 with
        | VNumber aNum, VNumber a2Num =>
          Ok (isNumber aNum && isNumber a2Num && Bool.eqb (inexact aNum) (inexact a2Num)
              && complex_eqb (complex aNum) (complex a2Num))
        | _, _ => conversion_panic
        end
      end
    | _ => Ok false
    end
  | Expr car cdr =>
    match s with
    | Some (Expr car2 cdr2) =>
      isCarsEqual <- match car, car2 with
                     | Some c, Some c2 => Equals c (Some c2)
                     | None, None => Ok true
                     | _, _ => Ok false
                     end ;;
      isCdrsEqual <- match cdr, cdr2 with
                     | Some c, Some c2 => Equals c (Some c2)
                     | None, None => Ok true
                     | _, _ => Ok false
                     end ;;
      Ok (isCarsEqual && isCdrsEqual)
    | _ => Ok false
    end
  end.

Section WithMath.

Variables math_Sin math_Cos : float -> float.

Definition parseNumber (literal : list rune) : Res Number :=
  Parse math_Sin math_Cos (NewFromLiteral literal).

(** [ParseNextNode], [parseVector], [parseAbbrev] and [parseList], each
    taking the tokens and [p.index] and giving back the new index; [fuel]
    bounds the recursion depth. *)
Fixpoint ParseNextNode (fuel : nat) (ts : list Token) (i : nat) : Res (option Sexpr * nat) :=
  match fuel with
  | O => OutOfFuel
  | S f =>
    currentToken <- at_ ts i ;;
    let lit := Literal currentToken in
    '(sexpr, i) <-
      (match Type_ currentToken with
       | Lexer.BOOL => b <- parseBool lit ;; Ok (Some (Atom BOOL (VBool b)), i)
       | Lexer.NUMBER => n <- parseNumber lit ;; Ok (Some (Atom NUMBER (VNumber n)), i)
       | Lexer.CHAR => c <- parseChar lit ;; Ok (Some (Atom CHAR (VRune c)), i)
       | Lexer.STRING => Ok (Some (Atom STRING (VString lit)), i)
       | IDENT => Ok (Some (Atom SYMBOL (VString lit)), i)
       | HPAREN => '(v, i) <- parseVector f ts i ;; Ok (Some (Atom VECTOR (VVector v)), i)
       | SQUOTE | BQUOTE | COMMA | COMMAT => '(e, i) <- parseAbbrev f ts i ;; Ok (Some e, i)
       | LPAREN => '(e, i) <- parseList f ts i ;; Ok (Some e, i)
       | RPAREN | DOT => Ok (None, i)
       end) ;;
    Ok (sexpr, S i)
  end
with parseVector (fuel : nat) (ts : list Token) (i : nat) : Res (list (option Sexpr) * nat) :=
  match fuel with
  | O => OutOfFuel
  | S f => vectorLoop f ts (S i) []
  end
(** [for node.Type != lexer.RPAREN { value = append(value, p.ParseNextNode()); ... }] *)
with vectorLoop (fuel : nat) (ts : list Token) (i : nat) (value : list (option Sexpr))
    : Res (list (option Sexpr) * nat) :=
  match fuel with
  | O => OutOfFuel
  | S f =>
    node <- at_ ts i ;;
    if is_type RPAREN node then Ok (value, i)
    else '(x, i) <- ParseNextNode f ts i ;; vectorLoop f ts i (value ++ [x])
  end
with parseAbbrev (fuel : nat) (ts : list Token) (i : nat) : Res (Sexpr * nat) :=
  match fuel with
  | O => OutOfFuel
  | S f =>
    node <- at_ ts i ;;
    let car := Some (Atom SYMBOL (VString (abbrevToIdent (Literal node)))) in
    '(x, i) <- ParseNextNode f ts (S i) ;;
    Ok (Expr car (Some (Expr x (Some EmptyPair))), Nat.pred i)
  end
with parseList (fuel : nat) (ts : list Token) (i : nat) : Res (Sexpr * nat) :=
  match fuel with
  | O => OutOfFuel
  | S f =>
    '(h, i) <- listLoop f ts (S i) [mkCell None LNil] None 0 ;;
    Ok (read_cell (length h) h 0, i)
  end
(** The loop of [parseList] over the cells [h], [previousNode], [currentNode]
    and [p.index]. *)
with listLoop (fuel : nat) (ts : list Token) (i : nat) (h : heap)
    (previousNode : option nat) (currentNode : nat) : Res (heap * nat) :=
  match fuel with
  | O => OutOfFuel
  | S f =>
    node <- at_ ts i ;;
    if is_type RPAREN node then Ok (h, i) else
    '(h, i) <-
      (if is_type DOT node then
         '(x, i) <- ParseNextNode f ts (S i) ;;
         match previousNode with
         | None => nil_panic
         | Some pn =>
           let h := set_cdr h pn (link_of x) in
           node <- at_ ts i ;;
           if negb (is_type RPAREN node) then Panic (PString (str "list end expected"))
           else Ok (h, i)
         end
       else Ok (h, i)) ;;
    '(x, i) <- ParseNextNode f ts i ;;
    let h := set_car h currentNode x in
    let nw := length h in
    let h := set_cdr (h ++ [mkCell None LNil]) currentNode (LCell nw) in
    listLoop f ts i h (Some currentNode) nw
  end.

(** The loop of [Parse] from [p.index = i]. *)
Fixpoint parse_loop (fuel : nat) (ts : list Token) (i : nat) : Res (list (option Sexpr)) :=
  match fuel with
  | O => OutOfFuel
  | S f =>
    if (i <? length ts)%nat then
      '(x, i) <- ParseNextNode f ts i ;;
      program <- parse_loop f ts i ;;
      Ok (x :: program)
    else Ok []
  end.

Definition ParseTokens (fuel : nat) (ts : list Token) : Res (list (option Sexpr)) :=
  parse_loop fuel ts 0.

End WithMath.

End Parser.

(** ** Shapes of parsed lists *)

(** The Pair chain of a proper list with the given elements. *)
Fixpoint pair_chain (xs : list (option Parser.Sexpr)) : Parser.Sexpr :=
  match xs with
  | [] => Parser.EmptyPair
  | x :: t => Parser.Expr x (Some (pair_chain t))
  end.

(** The elements of a Pair chain whose last [Cdr] is the empty Pair;
    [None] for anything else. *)
Fixpoint proper_list_elems (s : Parser.Sexpr) : option (list (option Parser.Sexpr)) :=
  match s with
  | Parser.Expr None None => Some []
  | Parser.Expr car (Some cdr) => option_map (cons car) (proper_list_elems cdr)
  | _ => None
  end.

(** The token sequence of [(a . b)]. *)
Definition dotted_pair_tokens : list Lexer.Token :=
  [Lexer.mkToken Lexer.LPAREN (str "("); Lexer.mkToken Lexer.IDENT (str "a");
   Lexer.mkToken Lexer.DOT (str "."); Lexer.mkToken Lexer.IDENT (str "b");
   Lexer.mkToken Lexer.RPAREN (str ")")].

(** The abbreviation tokens, their literals and the symbols
    [abbrevToIdent] gives for them. *)
Definition abbreviations : list (Lexer.TokenType * list rune * list rune) :=
  [(Lexer.SQUOTE, str "'", str "quote"); (Lexer.BQUOTE, str "`", str "quasiquote");
   (Lexer.COMMA, str ",", str "unquote"); (Lexer.COMMAT, str ",@", str "unquote-splicing")].

(** ** Texts of tokens and atmosphere *)

(** Atmosphere as [skipAtmosphere] skips it: spaces and newlines, and
    comments from [;] up to and including a newline. *)
Fixpoint atm_text (a : list rune) : bool :=
  match a with
  | [] => true
  | c :: t => if Lexer.isWhitespace c then atm_text t
              else if Lexer.isComment c then comment_text t
              else false
  end
with comment_text (a : list rune) : bool :=
  match a with
  | [] => false
  | c :: t => if Lexer.isNewline c then atm_text t else comment_text t
  end.

(** The literal of a token, as the statement reads. *)
Definition token_literal (t : Lexer.Token) : list rune := Lexer.Literal t.

(** The source text of a token: its literal, with the double quotes of
    a [STRING] put back. *)
Definition token_text (t : Lexer.Token) : list rune :=
  match Lexer.Type_ t with
  | Lexer.STRING => Lexer.dquote :: Lexer.Literal t ++ [Lexer.dquote]
  | _ => Lexer.Literal t
  end.

(** Each token [t] preceded by the atmosphere [a] before it, as [(a, t)],
    then the atmosphere before the end, written out with [text]. *)
Definition source_of (text : Lexer.Token -> list rune)
    (pieces : list (list rune * Lexer.Token)) (final : list rune) : list rune :=
  concat (map (fun p => fst p ++ text (snd p)) pieces) ++ final.

(** A source of valid code points (what decoding UTF-8 gives). *)
Definition valid_source (s : list rune) : Prop :=
  Forall (fun r => Lexer.valid_rune r = true) s.

(** ** Specifications of the analyzer and of [Equals] *)

(** What a step of the analyzer keeps of a [Number]: the literal, the
    [isNumber] flag and the radix, and an inexact number stays inexact. *)
Definition number_kept (n n' : Number) : Prop :=
  literal n' = literal n /\ isNumber n' = isNumber n /\ radixVal n' = radixVal n /\
  (inexact n = true -> inexact n' = true).

(** The rune of a digit of value [d < 36]: [0]..[9], then [a]..[z]. *)
Definition digit_rune (d : Z) : rune := if d <? 10 then rn "0" + d else rn "a" + (d - 10).

(** The value of a digit sequence in radix [b], as [strconv] accumulates it. *)
Definition digits_value (b : Z) (ds : list Z) : Z := fold_left (fun n d => n * b + d) ds 0.

(** When [Equals] compares a datum with itself successfully: every atom
    carries a value of its own type, numbers are numbers with no NaN part,
    and vectors have no nil element. *)
Fixpoint equals_self_ok (s : Parser.Sexpr) : bool :=
  match s with
  | Parser.Atom t v =>
    match t, v with
    | Parser.BOOL, Parser.VBool _ | Parser.CHAR, Parser.VRune _
    | Parser.STRING, Parser.VString _ | Parser.SYMBOL, Parser.VString _ => true
    | Parser.NUMBER, Parser.VNumber n =>
      isNumber n && negb (PrimFloat.is_nan (fst (complex n))) && negb (PrimFloat.is_nan (snd (complex n)))
    | Parser.VECTOR, Parser.VVector xs =>
      forallb (fun x => match x with Some y => equals_self_ok y | None => false end) xs
    | _, _ => false
    end
  | Parser.Expr car cdr =>
    match car with Some c => equals_self_ok c | None => true end &&
    match cdr with Some c => equals_self_ok c | None => true end
  end.

(** * Properties *)

(** ** Outcomes *)

Lemma bind_Ok_inv {A B} (m : Res A) (k : A -> Res B) b :
  bind m k = Ok b -> exists a, m = Ok a /\ k a = Ok b.
Proof. destruct m; simpl; intros H; try discriminate; eauto. Qed.

(** [r'] refines [r]: it runs out of fuel no sooner. *)
Definition res_le {A} (r r' : Res A) : Prop := r = OutOfFuel \/ r = r'.

Create HintDb res_le.

Lemma res_le_refl {A} (r : Res A) : res_le r r.
Proof. right; reflexivity. Qed.

Lemma res_le_bind {A B} (m m' : Res A) (k k' : A -> Res B) :
  res_le m m' -> (forall a, res_le (k a) (k' a)) -> res_le (bind m k) (bind m' k').
Proof.
  intros [-> | <-] Hk; [left; reflexivity|].
  destruct m; simpl; [apply Hk | right | right]; reflexivity.
Qed.

Lemma res_le_trans {A} (r1 r2 r3 : Res A) : res_le r1 r2 -> res_le r2 r3 -> res_le r1 r3.
Proof. unfold res_le; intros [H|H] [H'|H']; subst; auto. Qed.


(** ** The parser: more fuel gives the same outcome *)

Section ParserUnfold.

Variables math_Sin math_Cos : float -> float.

(** One step of [ParseNextNode]. *)
Lemma PNN_S f ts i : Parser.ParseNextNode math_Sin math_Cos (S f) ts i =
  (currentToken <- Parser.at_ ts i ;;
   '(sexpr, i) <-
     (match Lexer.Type_ currentToken with
      | Lexer.BOOL => b <- Parser.parseBool (Lexer.Literal currentToken) ;;
                      Ok (Some (Parser.Atom Parser.BOOL (Parser.VBool b)), i)
      | Lexer.NUMBER => n <- Parser.parseNumber math_Sin math_Cos (Lexer.Literal currentToken) ;;
                        Ok (Some (Parser.Atom Parser.NUMBER (Parser.VNumber n)), i)
      | Lexer.CHAR => c <- Parser.parseChar (Lexer.Literal currentToken) ;;
                      Ok (Some (Parser.Atom Parser.CHAR (Parser.VRune c)), i)
      | Lexer.STRING => Ok (Some (Parser.Atom Parser.STRING (Parser.VString (Lexer.Literal currentToken))), i)
      | Lexer.IDENT => Ok (Some (Parser.Atom Parser.SYMBOL (Parser.VString (Lexer.Literal currentToken))), i)
      | Lexer.HPAREN => '(v, i) <- Parser.parseVector math_Sin math_Cos f ts i ;;
                        Ok (Some (Parser.Atom Parser.VECTOR (Parser.VVector v)), i)
      | Lexer.SQUOTE | Lexer.BQUOTE | Lexer.COMMA | Lexer.COMMAT =>
          '(e, i) <- Parser.parseAbbrev math_Sin math_Cos f ts i ;; Ok (Some e, i)
      | Lexer.LPAREN => '(e, i) <- Parser.parseList math_Sin math_Cos f ts i ;; Ok (Some e, i)
      | Lexer.RPAREN | Lexer.DOT => Ok (None, i)
      end) ;;
   Ok (sexpr, S i)).
Proof. reflexivity. Qed.

(** One step of [parseList]. *)
Lemma pList_S f ts i : Parser.parseList math_Sin math_Cos (S f) ts i =
  ('(h, i) <- Parser.listLoop math_Sin math_Cos f ts (S i) [Parser.mkCell None Parser.LNil] None 0 ;;
   Ok (Parser.read_cell (length h) h 0, i)).
Proof. reflexivity. Qed.

End ParserUnfold.

Section ParserFuel.

Variables math_Sin math_Cos : float -> float.

#[local] Arguments Parser.parseNumber : simpl never.

Local Abbreviation PNN := (Parser.ParseNextNode math_Sin math_Cos).
Local Abbreviation pVector := (Parser.parseVector math_Sin math_Cos).
Local Abbreviation vLoop := (Parser.vectorLoop math_Sin math_Cos).
Local Abbreviation pAbbrev := (Parser.parseAbbrev math_Sin math_Cos).
Local Abbreviation pList := (Parser.parseList math_Sin math_Cos).
Local Abbreviation lLoop := (Parser.listLoop math_Sin math_Cos).

Ltac mono_step :=
  match goal with
  | |- res_le ?x ?x => apply res_le_refl
  | |- res_le (bind _ _) (bind _ _) => apply res_le_bind; [| intros [? ?] || intros ?]
  | |- res_le (match ?t with _ => _ end) _ => destruct t
  | H : forall ts i, res_le (?F _ ts i) _ |- res_le (?F _ _ _) _ => apply H
  | H : forall ts i v, res_le (?F _ ts i v) _ |- res_le (?F _ _ _ _) _ => apply H
  | H : forall ts i h p c, res_le (?F _ ts i h p c) _ |- res_le (?F _ _ _ _ _ _) _ => apply H
  end.

Lemma parser_fuel_step f :
  (forall ts i, res_le (PNN f ts i) (PNN (S f) ts i)) /\
  (forall ts i, res_le (pVector f ts i) (pVector (S f) ts i)) /\
  (forall ts i v, res_le (vLoop f ts i v) (vLoop (S f) ts i v)) /\
  (forall ts i, res_le (pAbbrev f ts i) (pAbbrev (S f) ts i)) /\
  (forall ts i, res_le (pList f ts i) (pList (S f) ts i)) /\
  (forall ts i h p c, res_le (lLoop f ts i h p c) (lLoop (S f) ts i h p c)).
Proof.
  induction f as [|f IH].
  - repeat split; intros; left; reflexivity.
  - destruct IH as (H1 & H2 & H3 & H4 & H5 & H6).
    repeat split; intros; cbn [Parser.ParseNextNode Parser.parseVector Parser.vectorLoop
      Parser.parseAbbrev Parser.parseList Parser.listLoop]; repeat mono_step.
Qed.

Lemma PNN_fuel_le f f' ts i : (f <= f')%nat -> res_le (PNN f ts i) (PNN f' ts i).
Proof.
  induction 1; [apply res_le_refl|].
  eapply res_le_trans; [eassumption|apply parser_fuel_step].
Qed.

Lemma parse_loop_fuel_step f ts i :
  res_le (Parser.parse_loop math_Sin math_Cos f ts i) (Parser.parse_loop math_Sin math_Cos (S f) ts i).
Proof.
  revert i; induction f as [|f IH]; intros i; [left; reflexivity|].
  cbn [Parser.parse_loop]; destruct (i <? length ts)%nat; [|apply res_le_refl].
  apply res_le_bind; [apply parser_fuel_step|intros [x j]].
  apply res_le_bind; [apply IH|intros; apply res_le_refl].
Qed.

Lemma parse_loop_fuel_le f f' ts i : (f <= f')%nat ->
  res_le (Parser.parse_loop math_Sin math_Cos f ts i) (Parser.parse_loop math_Sin math_Cos f' ts i).
Proof.
  induction 1; [apply res_le_refl|].
  eapply res_le_trans; [eassumption|apply parse_loop_fuel_step].
Qed.

End ParserFuel.

(** ** The parser in a context: tokens before and after a successful run *)

Section ParserContext.

Variables math_Sin math_Cos : float -> float.
Variables pre post : list Lexer.Token.

Local Open Scope nat_scope.

Local Abbreviation PNN := (Parser.ParseNextNode math_Sin math_Cos).
Local Abbreviation pVector := (Parser.parseVector math_Sin math_Cos).
Local Abbreviation vLoop := (Parser.vectorLoop math_Sin math_Cos).
Local Abbreviation pAbbrev := (Parser.parseAbbrev math_Sin math_Cos).
Local Abbreviation pList := (Parser.parseList math_Sin math_Cos).
Local Abbreviation lLoop := (Parser.listLoop math_Sin math_Cos).

#[local] Arguments Parser.is_type : simpl never.
#[local] Arguments Parser.parseNumber : simpl never.

Local Definition ctx (ts : list Lexer.Token) := pre ++ ts ++ post.
Local Definition k := length pre.

Lemma at_ctx ts i t : Parser.at_ ts i = Ok t -> Parser.at_ (ctx ts) (k + i) = Ok t.
Proof.
  unfold Parser.at_, ctx, k; intros H.
  destruct (nth_error ts i) eqn:E; [|discriminate].
  rewrite nth_error_app2 by lia.
  replace (length pre + i - length pre)%nat with i by lia.
  rewrite nth_error_app1 by (apply nth_error_Some; congruence).
  rewrite E; exact H.
Qed.

Ltac ok_inv H := apply bind_Ok_inv in H; destruct H as [[? ?] [? H]].
Ltac ok_inv1 H := apply bind_Ok_inv in H; destruct H as [? [? H]].

Lemma parser_ctx f :
  (forall ts i x j, PNN f ts i = Ok (x, j) -> PNN f (ctx ts) (k + i) = Ok (x, k + j) /\ j <> O) /\
  (forall ts i v j, pVector f ts i = Ok (v, j) -> pVector f (ctx ts) (k + i) = Ok (v, k + j)) /\
  (forall ts i v r j, vLoop f ts i v = Ok (r, j) -> vLoop f (ctx ts) (k + i) v = Ok (r, k + j)) /\
  (forall ts i e j, pAbbrev f ts i = Ok (e, j) -> pAbbrev f (ctx ts) (k + i) = Ok (e, k + j)) /\
  (forall ts i e j, pList f ts i = Ok (e, j) -> pList f (ctx ts) (k + i) = Ok (e, k + j)) /\
  (forall ts i h p c h' j, lLoop f ts i h p c = Ok (h', j) ->
     lLoop f (ctx ts) (k + i) h p c = Ok (h', k + j)).
Proof.
  induction f as [|f IH].
  - repeat split; intros; discriminate.
  - destruct IH as (H1 & H2 & H3 & H4 & H5 & H6).
    refine (conj _ (conj _ (conj _ (conj _ (conj _ _))))).
    + intros ts i x j H; rewrite PNN_S in H |- *.
      apply bind_Ok_inv in H; destruct H as [tok [Htok H]].
      rewrite (at_ctx _ _ _ Htok); cbn [bind].
      apply bind_Ok_inv in H; destruct H as [[sx i1] [H7 H]].
      injection H as <- <-.
      split; [|discriminate].
      destruct (Lexer.Type_ tok); cbn [bind] in H7 |- *;
        try (destruct (Parser.parseBool _)); try (destruct (Parser.parseNumber _ _ _));
        try (destruct (Parser.parseChar _)); cbn [bind] in H7 |- *;
        try discriminate;
        try (injection H7 as <- <-; rewrite Nat.add_succ_r; reflexivity).
      all: apply bind_Ok_inv in H7; destruct H7 as [[e i2] [He H7]];
        injection H7 as <- <-;
        first [rewrite (H2 _ _ _ _ He) | rewrite (H4 _ _ _ _ He) | rewrite (H5 _ _ _ _ He)];
        cbn [bind]; rewrite Nat.add_succ_r; reflexivity.
    + intros ts i v j H; simpl in H |- *.
      rewrite <- Nat.add_succ_r; apply H3; exact H.
    + intros ts i v r j H; simpl in H |- *.
      apply bind_Ok_inv in H; destruct H as [node [Hn H]].
      rewrite (at_ctx _ _ _ Hn); cbn [bind].
      destruct (Parser.is_type Lexer.RPAREN node).
      * injection H as <- <-; reflexivity.
      * apply bind_Ok_inv in H; destruct H as [[x i1] [Hx H]].
        destruct (H1 _ _ _ _ Hx) as [-> _]; cbn [bind].
        apply H3; exact H.
    + intros ts i e j H; simpl in H |- *.
      apply bind_Ok_inv in H; destruct H as [node [Hn H]].
      rewrite (at_ctx _ _ _ Hn); cbn [bind].
      apply bind_Ok_inv in H; destruct H as [[x i1] [Hx H]].
      injection H as <- <-.
      destruct (H1 _ _ _ _ Hx) as [E Hnz].
      rewrite <- Nat.add_succ_r, E; cbn [bind].
      f_equal; f_equal; lia.
    + intros ts i e j H; simpl in H |- *.
      apply bind_Ok_inv in H; destruct H as [[h i1] [Hh H]].
      injection H as <- <-.
      rewrite <- Nat.add_succ_r, (H6 _ _ _ _ _ _ _ Hh); reflexivity.
    + intros ts i h p c h' j H; simpl in H |- *.
      apply bind_Ok_inv in H; destruct H as [node [Hn H]].
      rewrite (at_ctx _ _ _ Hn); cbn [bind].
      destruct (Parser.is_type Lexer.RPAREN node); [injection H as <- <-; reflexivity|].
      apply bind_Ok_inv in H; destruct H as [[h1 i1] [Hd H]].
      destruct (Parser.is_type Lexer.DOT node); cbn [bind] in Hd |- *.
      * apply bind_Ok_inv in Hd; destruct Hd as [[x i2] [Hx Hd]].
        rewrite <- Nat.add_succ_r, (proj1 (H1 _ _ _ _ Hx)); cbn [bind].
        destruct p as [pn|]; [|discriminate].
        apply bind_Ok_inv in Hd; destruct Hd as [node2 [Hn2 Hd]].
        rewrite (at_ctx _ _ _ Hn2); cbn [bind].
        destruct (negb (Parser.is_type Lexer.RPAREN node2)); [discriminate|].
        injection Hd as <- <-; cbn [bind].
        apply bind_Ok_inv in H; destruct H as [[x3 i3] [Hx3 H]].
        destruct (H1 _ _ _ _ Hx3) as [-> _]; cbn [bind].
        apply H6; exact H.
      * injection Hd as <- <-; cbn [bind].
        apply bind_Ok_inv in H; destruct H as [[x3 i3] [Hx3 H]].
        destruct (H1 _ _ _ _ Hx3) as [-> _]; cbn [bind].
        apply H6; exact H.
Qed.

End ParserContext.

(** ** Proper lists *)

Section ParserLists.

Variables math_Sin math_Cos : float -> float.

Local Abbreviation PNN := (Parser.ParseNextNode math_Sin math_Cos).
Local Abbreviation lLoop := (Parser.listLoop math_Sin math_Cos).

#[local] Arguments Parser.is_type : simpl never.
#[local] Arguments Parser.parseNumber : simpl never.

Local Open Scope nat_scope.

Lemma lLoop_fuel_le f f' ts i h p c : f <= f' ->
  res_le (lLoop f ts i h p c) (lLoop f' ts i h p c).
Proof.
  induction 1; [apply res_le_refl|].
  eapply res_le_trans; [eassumption|apply parser_fuel_step].
Qed.

Lemma res_le_Ok {A} (r r' : Res A) a : res_le r r' -> r = Ok a -> r' = Ok a.
Proof. intros [-> | <-] E; [discriminate | exact E]. Qed.

(** A datum starts with a token that is neither [RPAREN] nor [DOT]. *)
Lemma datum_first f ts i s j : PNN f ts i = Ok (Some s, j) ->
  exists t, Parser.at_ ts i = Ok t /\
    Parser.is_type Lexer.RPAREN t = false /\ Parser.is_type Lexer.DOT t = false.
Proof.
  destruct f as [|f]; [discriminate|]; rewrite PNN_S.
  intros H; apply bind_Ok_inv in H; destruct H as [t [Ht H]].
  exists t; split; [exact Ht|].
  unfold Parser.is_type; destruct (Lexer.Type_ t); cbn [bind] in H;
    first [split; reflexivity | discriminate H].
Qed.

(** The cells of a list under construction whose first cell is at address
    [j]: one per element, each linked to the next, and the current empty
    one. *)
Fixpoint chain_heap (j : nat) (acc : list Parser.Sexpr) : Parser.heap :=
  match acc with
  | [] => [Parser.mkCell None Parser.LNil]
  | s :: t => Parser.mkCell (Some s) (Parser.LCell (S j)) :: chain_heap (S j) t
  end.

Lemma chain_heap_length j acc : length (chain_heap j acc) = S (length acc).
Proof. revert j; induction acc; simpl; auto. Qed.

Lemma update_length h a f : length (Parser.update h a f) = length h.
Proof. revert a; induction h as [|c h IH]; intros [|a']; simpl; auto. Qed.

Lemma chain_heap_step j acc s :
  Parser.set_cdr (Parser.set_car (chain_heap j acc) (length acc) (Some s)
                    ++ [Parser.mkCell None Parser.LNil])
    (length acc) (Parser.LCell (j + S (length acc)))
  = chain_heap j (acc ++ [s]).
Proof.
  revert j; induction acc as [|x t IH]; intros j; simpl.
  - rewrite Nat.add_1_r; reflexivity.
  - unfold Parser.set_cdr, Parser.set_car in *; simpl; f_equal.
    rewrite <- IH; replace (j + S (S (length t))) with (S j + S (length t)) by lia.
    reflexivity.
Qed.

Lemma chain_heap_nth j acc d :
  nth_error (chain_heap j acc) d =
  if d <? length acc then
    match nth_error acc d with
    | Some s => Some (Parser.mkCell (Some s) (Parser.LCell (S (j + d))))
    | None => None
    end
  else if d =? length acc then Some (Parser.mkCell None Parser.LNil) else None.
Proof.
  revert j d; induction acc as [|x t IH]; intros j [|d].
  - reflexivity.
  - destruct d; reflexivity.
  - simpl; rewrite Nat.add_0_r; reflexivity.
  - cbn [chain_heap nth_error length]; rewrite IH.
    change (S d <? S (length t)) with (d <? length t).
    change (S d =? S (length t)) with (d =? length t).
    destruct (d <? length t); [|reflexivity].
    destruct (nth_error t d); [|reflexivity].
    rewrite Nat.add_succ_r; reflexivity.
Qed.

Lemma skipn_nth_error {A} (l : list A) d x : nth_error l d = Some x ->
  skipn d l = x :: skipn (S d) l.
Proof.
  revert d; induction l as [|y l IH]; intros [|d] H; simpl in *; try discriminate.
  - injection H as ->; reflexivity.
  - apply IH; exact H.
Qed.

Lemma read_chain_heap acc fuel d : d <= length acc -> length acc - d < fuel ->
  Parser.read_cell fuel (chain_heap 0 acc) d = pair_chain (map Some (skipn d acc)).
Proof.
  revert d; induction fuel as [|fuel IH]; intros d Hd Hf; [lia|].
  simpl; rewrite chain_heap_nth.
  destruct (d <? length acc) eqn:E.
  - apply Nat.ltb_lt in E.
    destruct (nth_error acc d) as [s|] eqn:Es; [|apply nth_error_None in Es; lia].
    simpl; rewrite IH by lia.
    rewrite (skipn_nth_error acc d s Es); reflexivity.
  - apply Nat.ltb_ge in E.
    replace d with (length acc) by lia.
    rewrite Nat.eqb_refl, skipn_all; reflexivity.
Qed.

Lemma PNN_lift f f' ts i r : f <= f' -> PNN f ts i = Ok r -> PNN f' ts i = Ok r.
Proof. intros Hf; apply res_le_Ok, PNN_fuel_le, Hf. Qed.

Lemma lLoop_lift f f' ts i h p c r : f <= f' -> lLoop f ts i h p c = Ok r -> lLoop f' ts i h p c = Ok r.
Proof. intros Hf; apply res_le_Ok, lLoop_fuel_le, Hf. Qed.

Lemma at_app_length pre t post : Parser.at_ (pre ++ t :: post) (length pre) = Ok t.
Proof. unfold Parser.at_; rewrite nth_error_app2, Nat.sub_diag by lia; reflexivity. Qed.

(** The list loop over a sequence of datums, each parsed on its own, up
    to the closing [RPAREN]. *)
Lemma list_loop_datums ds ss :
  Forall2 (fun d s => exists f, PNN f d 0 = Ok (Some s, length d)) ds ss ->
  forall pre post rp acc prev, Parser.is_type Lexer.RPAREN rp = true ->
  exists f, lLoop f (pre ++ concat ds ++ rp :: post) (length pre) (chain_heap 0 acc) prev (length acc)
    = Ok (chain_heap 0 (acc ++ ss), length pre + length (concat ds)).
Proof.
  induction 1 as [|d s ds ss [f1 Hd] HF IH]; intros pre post rp acc prev Hrp.
  - exists 1; simpl; rewrite at_app_length; cbn [bind]; rewrite Hrp.
    rewrite app_nil_r, Nat.add_0_r; reflexivity.
  - destruct (datum_first _ _ _ _ _ Hd) as [t [Ht [Htr Htd]]].
    destruct (IH (pre ++ d) post rp (acc ++ [s]) (Some (length acc)) Hrp) as [f2 Hf2].
    pose proof (proj1 (parser_ctx math_Sin math_Cos pre (concat ds ++ rp :: post) f1) _ _ _ _ Hd) as [Hc _].
    pose proof (at_ctx pre (concat ds ++ rp :: post) _ _ _ Ht) as Hat.
    unfold ctx, k in Hc, Hat; rewrite Nat.add_0_r in Hc, Hat.
    exists (S (Nat.max f1 f2)).
    simpl Parser.listLoop; cbn [concat]; rewrite <- app_assoc, Hat; cbn [bind]; rewrite Htr, Htd; cbn [bind].
    rewrite (PNN_lift f1 (Nat.max f1 f2) _ _ _ ltac:(lia) Hc); cbn [bind].
    assert (Hl : length (Parser.set_car (chain_heap 0 acc) (length acc) (Some s)) = S (length acc))
      by (unfold Parser.set_car; rewrite update_length, chain_heap_length; reflexivity).
    rewrite Hl.
    replace (S (length acc)) with (0 + S (length acc)) by reflexivity.
    rewrite chain_heap_step, Nat.add_0_l.
    replace (S (length acc)) with (length (acc ++ [s])) by (rewrite length_app; simpl; lia).
    rewrite <- app_assoc in Hf2.
    rewrite length_app in Hf2.
    rewrite (lLoop_lift f2 (Nat.max f1 f2) _ _ _ _ _ _ ltac:(lia) Hf2).
    rewrite <- app_assoc, length_app, Nat.add_assoc; reflexivity.
Qed.

Lemma proper_list_elems_chain xs : proper_list_elems (pair_chain xs) = Some xs.
Proof. induction xs as [|x xs IH]; simpl; [reflexivity|rewrite IH; destruct x; reflexivity]. Qed.

(** [parseList] on [LPAREN d1 ... dn RPAREN] with datums [di] each
    parsing on their own to [si]. *)
Lemma parse_list_datums lp rp ds ss :
  Lexer.Type_ lp = Lexer.LPAREN -> Lexer.Type_ rp = Lexer.RPAREN ->
  Forall2 (fun d s => exists f, PNN f d 0 = Ok (Some s, length d)) ds ss ->
  exists f, PNN f (lp :: concat ds ++ [rp]) 0
    = Ok (Some (pair_chain (map Some ss)), 2 + length (concat ds)).
Proof.
  intros Hlp Hrp HF.
  assert (Hr : Parser.is_type Lexer.RPAREN rp = true) by (unfold Parser.is_type; rewrite Hrp; reflexivity).
  destruct (list_loop_datums ds ss HF [lp] [] rp [] None Hr) as [f Hf].
  exists (S (S f)).
  cbn [app length chain_heap Nat.add] in Hf.
  rewrite PNN_S; unfold Parser.at_; cbn [nth_error bind]; rewrite Hlp, pList_S, Hf; cbn [bind].
  rewrite read_chain_heap by (rewrite ?chain_heap_length; lia).
  reflexivity.
Qed.

(** C7: a proper list [LPAREN d1 ... dn RPAREN] whose datums [di] each
    parse on their own to [si] gives the Pair chain of [s1 ... sn]: [n]
    Pairs whose last [Cdr] is the empty Pair (the empty Pair itself for
    [n = 0]), having consumed the whole token sequence. *)
Theorem proper_list_chain lp rp ds ss :
  Lexer.Type_ lp = Lexer.LPAREN -> Lexer.Type_ rp = Lexer.RPAREN ->
  Forall2 (fun d s => exists f, PNN f d 0 = Ok (Some s, length d)) ds ss ->
  exists f r, PNN f (lp :: concat ds ++ [rp]) 0 = Ok (Some r, 2 + length (concat ds)) /\
    r = pair_chain (map Some ss) /\ proper_list_elems r = Some (map Some ss) /\
    length ss = length ds.
Proof.
  intros Hlp Hrp HF.
  destruct (parse_list_datums lp rp ds ss Hlp Hrp HF) as [f Hf].
  exists f, (pair_chain (map Some ss)).
  refine (conj Hf (conj eq_refl (conj (proper_list_elems_chain _) _))).
  symmetry; exact (Forall2_length HF).
Qed.

(** C5 (as amended): an abbreviation token followed by the tokens [ds] of
    a datum [X] parses to the very tree the explicit list [(S X)] parses
    to, namely [Pair(Atom(SYMBOL,S), Pair(X, EmptyPair))]. *)
Theorem abbrev_as_list ty lit sym lp rp ds x :
  In (ty, lit, sym) abbreviations ->
  Lexer.Type_ lp = Lexer.LPAREN -> Lexer.Type_ rp = Lexer.RPAREN ->
  (exists f, PNN f ds 0 = Ok (Some x, length ds)) ->
  exists f g r,
    PNN f (Lexer.mkToken ty lit :: ds) 0 = Ok (Some r, 1 + length ds) /\
    PNN g (lp :: Lexer.mkToken Lexer.IDENT sym :: ds ++ [rp]) 0 = Ok (Some r, 3 + length ds) /\
    r = Parser.Expr (Some (Parser.Atom Parser.SYMBOL (Parser.VString sym)))
                    (Some (Parser.Expr (Some x) (Some Parser.EmptyPair))).
Proof.
  intros Hin Hlp Hrp [f Hx].
  destruct (parse_list_datums lp rp [[Lexer.mkToken Lexer.IDENT sym]; ds]
              [Parser.Atom Parser.SYMBOL (Parser.VString sym); x] Hlp Hrp) as [g Hg].
  { apply Forall2_cons; [exists 1; reflexivity|].
    apply Forall2_cons; [exists f; exact Hx|apply Forall2_nil]. }
  simpl in Hg; rewrite app_nil_r in Hg.
  pose proof (proj1 (parser_ctx math_Sin math_Cos [Lexer.mkToken ty lit] [] f) _ _ _ _ Hx) as [Hc _].
  unfold ctx, k in Hc; simpl in Hc; rewrite app_nil_r in Hc.
  exists (S (S f)); do 2 eexists; refine (conj _ (conj Hg eq_refl)).
  simpl in Hin; destruct Hin as [E|[E|[E|[E|[]]]]]; injection E as <- <- <-;
    simpl; rewrite Hc; reflexivity.
Qed.

End ParserLists.

Section ParserTop.

Variables math_Sin math_Cos : float -> float.

Local Abbreviation PNN := (Parser.ParseNextNode math_Sin math_Cos).
Local Abbreviation loop := (Parser.parse_loop math_Sin math_Cos).

Local Open Scope nat_scope.

#[local] Arguments Parser.parseNumber : simpl never.

(** C10: at top level an [RPAREN] or [DOT] token at [p.index = i] makes
    [ParseNextNode] return normally with a nil S-expression and the index
    [i + 1], and the loop of [Parse] from [i] is the loop from [i + 1]
    with that nil prepended to its result. *)
Theorem toplevel_close_nil f ts i tok :
  nth_error ts i = Some tok ->
  Lexer.Type_ tok = Lexer.RPAREN \/ Lexer.Type_ tok = Lexer.DOT ->
  Parser.ParseNextNode math_Sin math_Cos (S f) ts i = Ok (None, S i) /\
  Parser.parse_loop math_Sin math_Cos (S (S f)) ts i
  = (program <- Parser.parse_loop math_Sin math_Cos (S f) ts (S i) ;; Ok (None :: program)).
Proof.
  intros Hi Ht.
  assert (Hp : PNN (S f) ts i = Ok (None, S i)).
  { rewrite PNN_S; unfold Parser.at_; rewrite Hi; cbn [bind].
    destruct Ht as [Ht|Ht]; rewrite Ht; reflexivity. }
  split; [exact Hp|].
  assert (Hl : (i <? length ts) = true) by (apply Nat.ltb_lt, nth_error_Some; congruence).
  change (loop (S (S f)) ts i) with
    (if i <? length ts then '(x, j) <- PNN (S f) ts i ;; program <- loop (S f) ts j ;; Ok (x :: program)
     else Ok []).
  rewrite Hl, Hp; reflexivity.
Qed.

End ParserTop.

Lemma toplevel_close_nil_witness :
  let ts := [Lexer.mkToken Lexer.IDENT (str "a"); Lexer.mkToken Lexer.RPAREN (str ")")] in
  nth_error ts 1 = Some (Lexer.mkToken Lexer.RPAREN (str ")")) /\
  (Lexer.Type_ (Lexer.mkToken Lexer.RPAREN (str ")")) = Lexer.RPAREN \/
   Lexer.Type_ (Lexer.mkToken Lexer.RPAREN (str ")")) = Lexer.DOT) /\
  Parser.ParseNextNode (fun x => x) (fun x => x) 1 ts 1 = Ok (None, 2%nat) /\
  Parser.parse_loop (fun x => x) (fun x => x) 2 ts 1
  = (program <- Parser.parse_loop (fun x => x) (fun x => x) 1 ts 2 ;; Ok (None :: program)).
Proof.
  intros ts.
  refine (conj eq_refl (conj (or_introl eq_refl) _)).
  exact (toplevel_close_nil (fun x => x) (fun x => x) 0 ts 1 _ eq_refl (or_introl eq_refl)).
Defined.

Section AnalyzerProps.

Variables math_Sin math_Cos : float -> float.

Lemma FindStringSubmatch_MatchString r l :
  MatchString r l = false -> FindStringSubmatch r l = None.
Proof. unfold MatchString; destruct (FindStringSubmatch r l); congruence. Qed.

(** C9: on a literal the number grammar does not match, [Parse] of
    [NewFromLiteral] returns normally with the value [0+0i], exact, in
    radix 10. *)
Theorem parse_non_number l :
  IsNumberLit l = false ->
  exists n, Parse math_Sin math_Cos (NewFromLiteral l) = Ok n /\
    complex n = (zero, zero) /\ inexact n = false /\ radixVal n = 10.
Proof.
  unfold IsNumberLit, number_re; intros H.
  unfold Parse, getGroupVals at 1; cbn [literal NewFromLiteral].
  destruct (regexps typeNumber baseN) as [r|] eqn:E; [|vm_compute in E; discriminate].
  rewrite (FindStringSubmatch_MatchString r l H); cbn [bind].
  unfold parseComplex; cbn [group_val fold_left parsePrefix ContainsRune existsb].
  unfold parsePrefix; simpl.
  eexists; refine (conj eq_refl (conj eq_refl (conj eq_refl eq_refl))).
Qed.

End AnalyzerProps.

Lemma parse_non_number_witness :
  IsNumberLit (str "abc") = false /\
  exists n, Parse (fun x => x) (fun x => x) (NewFromLiteral (str "abc")) = Ok n /\
    complex n = (zero, zero) /\ inexact n = false /\ radixVal n = 10.
Proof.
  assert (H : IsNumberLit (str "abc") = false) by (vm_compute; reflexivity).
  exact (conj H (parse_non_number (fun x => x) (fun x => x) _ H)).
Defined.

Section LexerProps.

Local Abbreviation valid r := (Lexer.valid_rune r = true).

Lemma skip_split s :
  (forall s0, Lexer.skipAtmosphere s = Some s0 -> exists a, atm_text a = true /\ s = a ++ s0) /\
  (forall s0, Lexer.skipComment s = Some s0 -> exists a, comment_text a = true /\ s = a ++ s0).
Proof.
  induction s as [|c t [IHa IHc]]; split; intros s0 H.
  - injection H as <-; exists []; split; reflexivity.
  - discriminate.
  - simpl in H; destruct (Lexer.isWhitespace c) eqn:W.
    + destruct (IHa _ H) as [a [Ha ->]]; exists (c :: a); simpl; rewrite W; auto.
    + destruct (Lexer.isComment c) eqn:C.
      * destruct (IHc _ H) as [a [Ha ->]]; exists (c :: a); simpl; rewrite W, C; auto.
      * injection H as <-; exists []; split; reflexivity.
  - simpl in H; destruct (Lexer.isNewline c) eqn:N.
    + destruct (IHa _ H) as [a [Ha ->]]; exists (c :: a); simpl; rewrite N; auto.
    + destruct (IHc _ H) as [a [Ha ->]]; exists (c :: a); simpl; rewrite N; auto.
Qed.

Lemma WriteRune_valid r : valid r -> Lexer.WriteRune r = r.
Proof. unfold Lexer.WriteRune; intros ->; reflexivity. Qed.

Lemma valid_not_EOF r : valid r -> r <> scanner_EOF.
Proof.
  unfold Lexer.valid_rune, scanner_EOF; intros H E; subst r; discriminate.
Qed.

Lemma scanRest_split s w s' : valid_source s -> Lexer.scanRest s = (w, s') ->
  s = w ++ s' /\ valid_source s'.
Proof.
  revert w; induction s as [|c t IH]; intros w Hv H; simpl in H.
  - injection H as <- <-; split; [reflexivity|constructor].
  - inversion Hv as [|? ? Hc Ht]; subst.
    destruct (Lexer.isDelimiter c).
    + injection H as <- <-; split; [reflexivity|exact Hv].
    + destruct (Lexer.scanRest t) as [w0 s0] eqn:E; injection H as <- <-.
      destruct (IH w0 Ht eq_refl) as [-> Hs]; rewrite WriteRune_valid by exact Hc; auto.
Qed.

Lemma scanString_loop_split p s lit s' : valid_source s ->
  Lexer.scanString_loop p s = (Some lit, s') ->
  s = lit ++ Lexer.dquote :: s' /\ valid_source s'.
Proof.
  revert p lit; induction s as [|c t IH]; intros p lit Hv H; simpl in H; [discriminate|].
  inversion Hv as [|? ? Hc Ht]; subst.
  destruct (negb (p =? Lexer.backslash) && (c =? Lexer.dquote)) eqn:E.
  - injection H as <- <-; apply andb_prop in E; destruct E as [_ E]; apply Z.eqb_eq in E; subst c.
    split; [reflexivity|exact Ht].
  - destruct (Lexer.scanString_loop c t) as [[r|] s0] eqn:E2; [|discriminate].
    injection H as <- <-.
    destruct (IH c r Ht E2) as [-> Hs]; rewrite WriteRune_valid by exact Hc; auto.
Qed.

Lemma scanIdentifier_loop_split s w s' : valid_source s ->
  Lexer.scanIdentifier_loop s = (Some w, s') -> s = w ++ s' /\ valid_source s'.
Proof.
  revert w; induction s as [|c t IH]; intros w Hv H; simpl in H.
  - injection H as <- <-; split; [reflexivity|constructor].
  - inversion Hv as [|? ? Hc Ht]; subst.
    destruct (Lexer.isDelimiter c); [injection H as <- <-; auto|].
    destruct (negb (Lexer.isIdentifierSubsequent c)); [discriminate|].
    destruct (Lexer.scanIdentifier_loop t) as [[r|] s0] eqn:E; [|discriminate].
    injection H as <- <-.
    destruct (IH r Ht eq_refl) as [-> Hs]; rewrite WriteRune_valid by exact Hc; auto.
Qed.

Lemma scanNumber_split r s t s' : valid r -> valid_source s ->
  Lexer.scanNumber r s = ((t, None), s') ->
  exists w, token_text t = r :: w /\ s = w ++ s' /\ valid_source s'.
Proof.
  intros Hr Hv; unfold Lexer.scanNumber.
  destruct (Lexer.scanRest s) as [w s0] eqn:E.
  destruct (negb _); intros H; [discriminate|injection H as <- <-].
  destruct (scanRest_split _ _ _ Hv E) as [-> Hs].
  exists w; simpl; rewrite WriteRune_valid by exact Hr; auto.
Qed.

Lemma scanNchar_split r s t s' : valid r -> valid_source s ->
  Lexer.scanNchar r s = ((t, None), s') ->
  exists w, token_text t = rn "#" :: Lexer.backslash :: r :: w /\ s = w ++ s' /\ valid_source s'.
Proof.
  intros Hr Hv; unfold Lexer.scanNchar.
  destruct (Lexer.scanRest s) as [w s0] eqn:E.
  destruct (_ && _); intros H; [discriminate|injection H as <- <-].
  destruct (scanRest_split _ _ _ Hv E) as [-> Hs].
  exists w; simpl; rewrite WriteRune_valid by exact Hr; auto.
Qed.

Lemma scanString_split s t s' : valid_source s ->
  Lexer.scanString s = ((t, None), s') ->
  Lexer.dquote :: s = token_text t ++ s' /\ valid_source s'.
Proof.
  intros Hv; unfold Lexer.scanString.
  destruct (Lexer.scanString_loop Lexer.dquote s) as [[lit|] s0] eqn:E; intros H; [|discriminate].
  injection H as <- <-.
  destruct (scanString_loop_split _ _ _ _ Hv E) as [-> Hs].
  simpl; rewrite <- app_assoc; auto.
Qed.

Lemma scanIdentifier_split r s t s' : valid r -> valid_source s ->
  Lexer.scanIdentifier r s = ((t, None), s') ->
  exists w, token_text t = r :: w /\ s = w ++ s' /\ valid_source s'.
Proof.
  intros Hr Hv; unfold Lexer.scanIdentifier.
  destruct (negb _); [intros H; discriminate|].
  destruct (Lexer.scanIdentifier_loop s) as [[w|] s0] eqn:E; intros H; [|discriminate].
  injection H as <- <-.
  destruct (scanIdentifier_loop_split _ _ _ Hv E) as [-> Hs].
  exists w; simpl; rewrite WriteRune_valid by exact Hr; auto.
Qed.

Local Ltac tok E :=
  intros H; injection H as <- <-; apply Z.eqb_eq in E; subst; split; [reflexivity|assumption].

Local Ltac scanned lem Hr Hs :=
  intros H; destruct (lem _ _ _ _ Hr Hs H) as [w [Ht [E Hs']]];
  rewrite Ht, E; split; [reflexivity|exact Hs'].

Lemma scanToken_split s0 t s' : valid_source s0 ->
  Lexer.scanToken s0 = ((t, None), s') -> s0 = token_text t ++ s' /\ valid_source s'.
Proof.
  destruct s0 as [|c s1]; [intros _ H; discriminate H|].
  intros Hv; inversion Hv as [|? ? Hc Hs1]; subst.
  unfold Lexer.scanToken; cbn [Lexer.Next].
  rewrite (proj2 (Z.eqb_neq c scanner_EOF) (valid_not_EOF c Hc)).
  destruct (c =? rn "(") eqn:E1; [tok E1|].
  destruct (c =? rn ")") eqn:E2; [tok E2|].
  destruct (c =? rn "'") eqn:E3; [tok E3|].
  destruct (c =? rn "`") eqn:E4; [tok E4|].
  destruct (c =? rn ",") eqn:E5.
  { apply Z.eqb_eq in E5; subst c.
    destruct (Lexer.Peek s1 =? rn "@") eqn:E6.
    - destruct s1 as [|c2 s2]; [vm_compute in E6; discriminate E6|].
      cbn [Lexer.Peek] in E6; apply Z.eqb_eq in E6; subst c2.
      inversion Hs1; subst; cbn [Lexer.Next snd].
      intros H; injection H as <- <-; split; [reflexivity|assumption].
    - intros H; injection H as <- <-; split; [reflexivity|assumption]. }
  destruct (c =? rn ".") eqn:E7.
  { apply Z.eqb_eq in E7; subst c.
    destruct (Lexer.isDelimiter (Lexer.Peek s1)) eqn:E8.
    { intros H; injection H as <- <-; split; [reflexivity|assumption]. }
    destruct (Lexer.in_range "0" "9" (Lexer.Peek s1)) eqn:E9; [scanned scanNumber_split Hc Hs1|].
    destruct s1 as [|c1 s2]; [intros H; vm_compute in H; discriminate H|].
    cbn [Lexer.Next]; inversion Hs1 as [|? ? Hc1 Hs2]; subst.
    destruct (c1 =? rn ".") eqn:E10; [|intros H; discriminate H].
    apply Z.eqb_eq in E10; subst c1.
    destruct s2 as [|c2 s3]; [intros H; vm_compute in H; discriminate H|].
    cbn [Lexer.Next]; inversion Hs2 as [|? ? Hc2 Hs3]; subst.
    destruct (c2 =? rn ".") eqn:E11; [|intros H; discriminate H].
    apply Z.eqb_eq in E11; subst c2.
    intros H; injection H as <- <-; split; [reflexivity|assumption]. }
  destruct (c =? Lexer.dquote) eqn:E12.
  { apply Z.eqb_eq in E12; subst c; intros H; exact (scanString_split _ _ _ Hs1 H). }
  destruct (c =? rn "#") eqn:E13.
  { apply Z.eqb_eq in E13; subst c.
    destruct s1 as [|c1 s2]; [intros H; vm_compute in H; discriminate H|].
    cbn [Lexer.Peek Lexer.Next snd]; inversion Hs1 as [|? ? Hc1 Hs2]; subst.
    destruct (c1 =? rn "(") eqn:F1.
    { intros H; injection H as <- <-; apply Z.eqb_eq in F1; subst c1; split; [reflexivity|assumption]. }
    destruct ((c1 =? rn "t") || (c1 =? rn "f")) eqn:F2.
    { intros H; injection H as <- <-; simpl; rewrite WriteRune_valid by exact Hc1.
      split; [reflexivity|assumption]. }
    destruct (c1 =? Lexer.backslash) eqn:F3.
    { apply Z.eqb_eq in F3; subst c1.
      destruct s2 as [|c2 s3]; [intros H; vm_compute in H; discriminate H|].
      cbn [Lexer.Next]; inversion Hs2 as [|? ? Hc2 Hs3]; subst.
      destruct (Lexer.isDelimiter (Lexer.Peek s3)) eqn:F4.
      { intros H; injection H as <- <-; simpl; rewrite WriteRune_valid by exact Hc2.
        split; [reflexivity|assumption]. }
      scanned scanNchar_split Hc2 Hs3. }
    destruct (ContainsRune (str "iebodx") c1) eqn:F5; [|intros H; discriminate H].
    scanned scanNumber_split Hc Hs1. }
  destruct ((c =? rn "+") || (c =? rn "-")) eqn:E14.
  { destruct (Lexer.isDelimiter (Lexer.Peek s1)).
    - intros H; injection H as <- <-; simpl; rewrite WriteRune_valid by exact Hc.
      split; [reflexivity|assumption].
    - scanned scanNumber_split Hc Hs1. }
  destruct (Lexer.in_range "0" "9" c); [scanned scanNumber_split Hc Hs1|].
  scanned scanIdentifier_split Hc Hs1.
Qed.

Lemma scanners_not_EOF :
  (forall r s, snd (fst (Lexer.scanNumber r s)) <> Some Lexer.EOF) /\
  (forall r s, snd (fst (Lexer.scanNchar r s)) <> Some Lexer.EOF) /\
  (forall s, snd (fst (Lexer.scanString s)) <> Some Lexer.EOF) /\
  (forall r s, snd (fst (Lexer.scanIdentifier r s)) <> Some Lexer.EOF).
Proof.
  refine (conj _ (conj _ (conj _ _))).
  - intros r s; unfold Lexer.scanNumber; destruct (Lexer.scanRest s) as [w s'].
    destruct (negb _); intros H; discriminate H.
  - intros r s; unfold Lexer.scanNchar; destruct (Lexer.scanRest s) as [w s'].
    destruct (_ && _); intros H; discriminate H.
  - intros s; unfold Lexer.scanString; destruct (Lexer.scanString_loop _ s) as [[lit|] s'];
      intros H; discriminate H.
  - intros r s; unfold Lexer.scanIdentifier; destruct (negb _); [intros H; discriminate H|].
    destruct (Lexer.scanIdentifier_loop s) as [[w|] s']; intros H; discriminate H.
Qed.

(** [scanToken] reports [EOF] only on an empty input. *)
Lemma scanToken_EOF s0 : valid_source s0 ->
  snd (fst (Lexer.scanToken s0)) = Some Lexer.EOF -> s0 = [].
Proof.
  destruct s0 as [|c s1]; [reflexivity|].
  intros Hv; inversion Hv as [|? ? Hc Hs1]; subst.
  destruct scanners_not_EOF as [N1 [N2 [N3 N4]]].
  unfold Lexer.scanToken; cbn [Lexer.Next].
  rewrite (proj2 (Z.eqb_neq c scanner_EOF) (valid_not_EOF c Hc)).
  destruct (c =? rn "("); [intros H; discriminate H|].
  destruct (c =? rn ")"); [intros H; discriminate H|].
  destruct (c =? rn "'"); [intros H; discriminate H|].
  destruct (c =? rn "`"); [intros H; discriminate H|].
  destruct (c =? rn ",").
  { destruct (Lexer.Peek s1 =? rn "@"); intros H; discriminate H. }
  destruct (c =? rn ".").
  { destruct (Lexer.isDelimiter (Lexer.Peek s1)); [intros H; discriminate H|].
    destruct (Lexer.in_range "0" "9" (Lexer.Peek s1)); [intros H; exfalso; exact (N1 _ _ H)|].
    destruct (Lexer.Next s1) as [c1 s2]; destruct (c1 =? rn "."); [|intros H; discriminate H].
    destruct (Lexer.Next s2) as [c2 s3]; destruct (c2 =? rn "."); intros H; discriminate H. }
  destruct (c =? Lexer.dquote); [intros H; exfalso; exact (N3 _ H)|].
  destruct (c =? rn "#").
  { destruct (Lexer.Peek s1 =? rn "(").
    { destruct (Lexer.Next s1); intros H; discriminate H. }
    destruct ((Lexer.Peek s1 =? rn "t") || (Lexer.Peek s1 =? rn "f")).
    { destruct (Lexer.Next s1); intros H; discriminate H. }
    destruct (Lexer.Peek s1 =? Lexer.backslash).
    { destruct (Lexer.Next (snd (Lexer.Next s1))) as [ch s3].
      destruct (Lexer.isDelimiter (Lexer.Peek s3)); [intros H; discriminate H|].
      intros H; exfalso; exact (N2 _ _ H). }
    destruct (ContainsRune (str "iebodx") (Lexer.Peek s1)); [intros H; exfalso; exact (N1 _ _ H)|].
    intros H; discriminate H. }
  destruct ((c =? rn "+") || (c =? rn "-")).
  { destruct (Lexer.isDelimiter (Lexer.Peek s1)); [intros H; discriminate H|].
    intros H; exfalso; exact (N1 _ _ H). }
  destruct (Lexer.in_range "0" "9" c); intros H; exfalso; [exact (N1 _ _ H)|exact (N4 _ _ H)].
Qed.

Lemma NextToken_split s t s' : valid_source s ->
  Lexer.NextToken s = Some ((t, None), s') ->
  exists a, atm_text a = true /\ s = a ++ token_text t ++ s' /\ valid_source s'.
Proof.
  intros Hv; unfold Lexer.NextToken.
  destruct (Lexer.skipAtmosphere s) as [s0|] eqn:E; intros H; [|discriminate H].
  injection H as H.
  destruct (proj1 (skip_split s) _ E) as [a [Ha ->]].
  apply Forall_app in Hv; destruct Hv as [_ Hv].
  destruct (scanToken_split _ _ _ Hv H) as [-> Hs']; eauto.
Qed.

Lemma NextToken_EOF s t s' : valid_source s ->
  Lexer.NextToken s = Some ((t, Some Lexer.EOF), s') -> atm_text s = true.
Proof.
  intros Hv; unfold Lexer.NextToken.
  destruct (Lexer.skipAtmosphere s) as [s0|] eqn:E; intros H; [|discriminate H].
  injection H as H.
  destruct (proj1 (skip_split s) _ E) as [a [Ha ->]].
  apply Forall_app in Hv; destruct Hv as [_ Hv].
  rewrite (scanToken_EOF s0 Hv) by (rewrite H; reflexivity).
  rewrite app_nil_r; exact Ha.
Qed.

Lemma cons_outcome_Tokens t o ts : Lexer.cons_outcome t o = Lexer.Tokens ts ->
  exists ts', o = Lexer.Tokens ts' /\ ts = t :: ts'.
Proof. destruct o; simpl; intros H; try discriminate H; injection H as <-; eauto. Qed.

(** C8 (as amended): on a source of valid code points that the lexer reads
    to its end, the source is, token by token, the atmosphere skipped before
    the token followed by the token's text (its literal; for a [STRING]
    the literal between its double quotes), then the atmosphere before the
    end. *)
Theorem lexer_round_trip fuel s ts :
  valid_source s -> Lexer.Tokenize fuel s = Lexer.Tokens ts ->
  exists pieces final,
    map snd pieces = ts /\ Forall (fun p => atm_text (fst p) = true) pieces /\
    atm_text final = true /\ s = source_of token_text pieces final.
Proof.
  revert s ts; induction fuel as [|f IH]; intros s ts Hv H; [discriminate H|].
  cbn [Lexer.Tokenize] in H.
  destruct (Lexer.NextToken s) as [[[t [e|]] s']|] eqn:N; [| |discriminate H].
  - destruct e; try discriminate H.
    injection H as <-; exists [], s; refine (conj eq_refl (conj (Forall_nil _) (conj _ eq_refl))).
    exact (NextToken_EOF _ _ _ Hv N).
  - destruct (cons_outcome_Tokens _ _ _ H) as [ts' [Ht ->]].
    destruct (NextToken_split _ _ _ Hv N) as [a [Ha [-> Hs']]].
    destruct (IH _ _ Hs' Ht) as [pieces [final [Hm [Hp [Hf ->]]]]].
    exists ((a, t) :: pieces), final; cbn [map fst snd]; rewrite Hm.
    refine (conj eq_refl (conj (Forall_cons (a, t) Ha Hp) (conj Hf _))).
    unfold source_of; rewrite !app_assoc; reflexivity.
Qed.

End LexerProps.

(** ** The analyzer on digit strings and prefixes *)

Section NumberProps.

Variables math_Sin math_Cos : float -> float.

#[local] Arguments getGroupVals : simpl never.
#[local] Arguments ParseInt : simpl never.
#[local] Arguments ParseFloat : simpl never.

Lemma kept_refl n : number_kept n n.
Proof. unfold number_kept; auto. Qed.

Lemma kept_trans n1 n2 n3 : number_kept n1 n2 -> number_kept n2 n3 -> number_kept n1 n3.
Proof. unfold number_kept; intros (A & B & C & D) (A' & B' & C' & D'); repeat split; congruence || auto. Qed.

Lemma kept_set_inexact n : number_kept n (set_inexact n).
Proof. unfold number_kept; simpl; auto. Qed.

Lemma kept_set_complex c n : number_kept n (set_complex c n).
Proof. unfold number_kept; simpl; auto. Qed.

Lemma kept_if (b : bool) n : number_kept n (if b then set_inexact n else n).
Proof. destruct b; [apply kept_set_inexact|apply kept_refl]. Qed.

Lemma parseUint_kept l n v n' : parseUint l n = Ok (v, n') -> number_kept n n'.
Proof.
  unfold parseUint.
  destruct (ContainsRune l (rn "#")); cbn beta iota;
    destruct (ParseInt _ _) as [z [e|]]; intros H; try discriminate H;
    injection H as _ <-; [apply kept_set_inexact|apply kept_refl].
Qed.

Lemma parseDecimal_kept l n v n' : parseDecimal l n = Ok (v, n') -> number_kept n n'.
Proof.
  unfold parseDecimal; cbv zeta.
  destruct (ParseFloat _) as [f [e|]]; intros H; try discriminate H.
  injection H as _ <-; eapply kept_trans; apply kept_if.
Qed.

Lemma parseUreal_kept l n v n' : parseUreal l n = Ok (v, n') -> number_kept n n'.
Proof.
  unfold parseUreal.
  destruct (getGroupVals _ _ _) as [gv| |]; cbn [bind]; intros H; try discriminate H.
  destruct (negb _); [exact (parseDecimal_kept _ _ _ _ H)|].
  apply bind_Ok_inv in H; destruct H as [[d n1] [H1 H]].
  apply bind_Ok_inv in H; destruct H as [[e n2] [H2 H]].
  injection H as _ <-.
  apply (kept_trans _ _ _ (parseUint_kept _ _ _ _ H1)).
  destruct (ContainsRune l _); [exact (parseUint_kept _ _ _ _ H2)|].
  injection H2 as _ <-; apply kept_refl.
Qed.

Lemma parseReal_kept l n v n' : parseReal l n = Ok (v, n') -> number_kept n n'.
Proof.
  unfold parseReal; destruct l as [|c l]; [intros H; injection H as _ <-; apply kept_refl|].
  destruct (getGroupVals _ _ _) as [gv| |]; cbn [bind]; intros H; try discriminate H.
  apply bind_Ok_inv in H; destruct H as [[u n1] [H1 H]].
  injection H as _ <-; exact (parseUreal_kept _ _ _ _ H1).
Qed.

Lemma parseComplex_kept l n n' : parseComplex math_Sin math_Cos l n = Ok n' -> number_kept n n'.
Proof.
  unfold parseComplex.
  destruct (getGroupVals _ _ _) as [gv| |]; cbn [bind]; intros H; try discriminate H.
  apply bind_Ok_inv in H; destruct H as [[r n1] [H1 H]].
  apply (kept_trans _ _ _ (parseReal_kept _ _ _ _ H1)).
  destruct (ContainsRune l (rn "@")).
  { apply bind_Ok_inv in H; destruct H as [[i n2] [H2 H]].
    injection H as <-.
    apply (kept_trans _ _ _ (parseReal_kept _ _ _ _ H2)).
    eapply kept_trans; [apply kept_if|apply kept_set_complex]. }
  destruct (ContainsRune l (rn "i")).
  { apply bind_Ok_inv in H; destruct H as [[i n2] [H2 H]].
    injection H as <-.
    eapply kept_trans; [|apply kept_set_complex].
    destruct (negb _); [exact (parseUreal_kept _ _ _ _ H2)|].
    injection H2 as _ <-; apply kept_refl. }
  injection H as <-; apply kept_set_complex.
Qed.

(** [Parse] of a [Number] keeps its literal and its [isNumber] flag,
    never turns an inexact number exact, and leaves a radix of 2, 8, 10 or
    16 (set by [parsePrefix] from the [prefix] group). *)
Theorem parse_keeps_literal n n' :
  Parse math_Sin math_Cos n = Ok n' ->
  literal n' = literal n /\ isNumber n' = isNumber n /\ (inexact n = true -> inexact n' = true) /\
  (radixVal n' = 2 \/ radixVal n' = 8 \/ radixVal n' = 10 \/ radixVal n' = 16).
Proof.
  unfold Parse.
  destruct (getGroupVals _ _ _) as [gv| |]; cbn [bind]; intros H; try discriminate H.
  destruct (parseComplex_kept _ _ _ H) as (A & B & C & D).
  unfold parsePrefix in A, B, C, D; cbv zeta in A, B, C, D.
  set (pl := group_val gv (str "prefix")) in *.
  split; [rewrite A; destruct (ContainsRune pl (rn "i")); reflexivity|].
  split; [rewrite B; destruct (ContainsRune pl (rn "i")); reflexivity|].
  split; [intros E; apply D; destruct (ContainsRune pl (rn "i")); exact E || reflexivity|].
  rewrite C; clear.
  destruct (ContainsRune pl (rn "i")), (ContainsRune pl (rn "b")), (ContainsRune pl (rn "o")),
    (ContainsRune pl (rn "x")); cbn; unfold base2, base8, base10, base16; tauto.
Qed.

End NumberProps.

Section ParseUintProps.

Lemma fold_digits_ge b ds n : 1 <= b -> 0 <= n -> Forall (fun d => 0 <= d) ds ->
  n <= fold_left (fun n d => n * b + d) ds n.
Proof.
  intros Hb; revert n; induction ds as [|d ds IH]; intros n Hn Hd; simpl; [lia|].
  inversion Hd; subst.
  specialize (IH (n * b + d) ltac:(nia) ltac:(assumption)); nia.
Qed.

Lemma lor32_letters : forallb (fun c => Z.lor c 32 =? c) (map (fun i => 97 + Z.of_nat i) (seq 0 26)) = true.
Proof. vm_compute; reflexivity. Qed.

Lemma lor32 c : 97 <= c <= 122 -> Z.lor c 32 = c.
Proof.
  intros Hc.
  pose proof (proj1 (forallb_forall _ _) lor32_letters c) as H.
  apply Z.eqb_eq, H, in_map_iff.
  exists (Z.to_nat (c - 97)); split; [lia|apply in_seq; lia].
Qed.

Lemma rn_0 : rn "0" = 48. Proof. reflexivity. Qed.
Lemma rn_9 : rn "9" = 57. Proof. reflexivity. Qed.
Lemma rn_a : rn "a" = 97. Proof. reflexivity. Qed.
Lemma rn_z : rn "z" = 122. Proof. reflexivity. Qed.

(** The digit [parseUint_loop] reads from [digit_rune d]. *)
Lemma loop_digit b cutoff maxVal n d s : 0 <= d < 36 ->
  parseUint_loop b cutoff maxVal n (digit_rune d :: s) =
  if b <=? d then (0, Some ErrSyntax)
  else if cutoff <=? n then (maxVal, Some ErrRange)
  else if maxVal <? n * b + d then (maxVal, Some ErrRange)
  else parseUint_loop b cutoff maxVal (n * b + d) s.
Proof.
  intros Hd; unfold digit_rune; cbn [parseUint_loop].
  destruct (d <? 10) eqn:E.
  - apply Z.ltb_lt in E.
    replace ((rn "0" <=? rn "0" + d) && (rn "0" + d <=? rn "9")) with true
      by (symmetry; apply andb_true_iff; split; apply Z.leb_le; rewrite ?rn_0, ?rn_9, ?rn_a, ?rn_z; lia).
    replace (rn "0" + d - rn "0") with d by lia; reflexivity.
  - apply Z.ltb_ge in E.
    replace ((rn "0" <=? rn "a" + (d - 10)) && (rn "a" + (d - 10) <=? rn "9")) with false
      by (symmetry; apply andb_false_iff; right; apply Z.leb_gt; rewrite ?rn_0, ?rn_9, ?rn_a, ?rn_z; lia).
    unfold lower; rewrite (lor32 (rn "a" + (d - 10))) by (rewrite ?rn_0, ?rn_9, ?rn_a, ?rn_z; lia).
    replace ((rn "a" + (d - 10) <? 128) && (rn "a" <=? rn "a" + (d - 10)) && (rn "a" + (d - 10) <=? rn "z"))
      with true by (symmetry; rewrite !andb_true_iff, Z.ltb_lt, !Z.leb_le; rewrite ?rn_0, ?rn_9, ?rn_a, ?rn_z; lia).
    replace (rn "a" + (d - 10) - rn "a" + 10) with d by lia; reflexivity.
Qed.

Lemma maxUint64_div b : 2 <= b -> maxUint64 < (maxUint64 / b + 1) * b.
Proof.
  intros Hb; pose proof (Z.mul_div_le maxUint64 b ltac:(lia)).
  pose proof (Z.mod_pos_bound maxUint64 b ltac:(lia)).
  pose proof (Z.div_mod maxUint64 b ltac:(lia)); nia.
Qed.

Lemma loop_digits b ds n : 2 <= b -> 0 <= n <= maxUint64 -> Forall (fun d => 0 <= d < b /\ d < 36) ds ->
  parseUint_loop b (maxUint64 / b + 1) maxUint64 n (map digit_rune ds) =
  let v := fold_left (fun n d => n * b + d) ds n in
  if v <=? maxUint64 then (v, None) else (maxUint64, Some ErrRange).
Proof.
  intros Hb; revert n; induction ds as [|d ds IH]; intros n Hn Hd; cbn zeta.
  - simpl; replace (n <=? maxUint64) with true by (symmetry; apply Z.leb_le; lia); reflexivity.
  - inversion Hd as [|? ? [Hd1 Hd2] Hds]; subst.
    cbn [map fold_left]; rewrite loop_digit by lia.
    replace (b <=? d) with false by (symmetry; apply Z.leb_gt; lia).
    assert (Hge : n * b + d <= fold_left (fun n d => n * b + d) ds (n * b + d))
      by (apply fold_digits_ge; [lia|nia|eapply Forall_impl; [|exact Hds]; intros ? [? ?]; lia]).
    destruct (maxUint64 / b + 1 <=? n) eqn:E1.
    { apply Z.leb_le in E1; pose proof (maxUint64_div b Hb).
      replace (fold_left _ ds _ <=? maxUint64) with false; [reflexivity|].
      symmetry; apply Z.leb_gt; nia. }
    destruct (maxUint64 <? n * b + d) eqn:E2.
    { apply Z.ltb_lt in E2.
      replace (fold_left _ ds _ <=? maxUint64) with false; [reflexivity|].
      symmetry; apply Z.leb_gt; lia. }
    apply Z.ltb_ge in E2.
    apply IH; [nia|exact Hds].
Qed.

Lemma fold_zeros b k v :
  fold_left (fun n d => n * b + d) (repeat 0 k) v = v * b ^ Z.of_nat k.
Proof.
  revert v; induction k as [|k IH]; intros v; cbn [repeat fold_left]; [simpl; lia|].
  rewrite IH, Nat2Z.inj_succ, Z.pow_succ_r by lia; lia.
Qed.

Lemma digit_rune_not_hash d : 0 <= d < 36 -> (digit_rune d =? rn "#") = false.
Proof.
  intros Hd; apply Z.eqb_neq; unfold digit_rune.
  destruct (d <? 10); rewrite ?rn_0, ?rn_a; change (rn "#") with 35; lia.
Qed.

Lemma digit_rune_not_sign d : 0 <= d < 36 ->
  (digit_rune d =? rn "+") = false /\ (digit_rune d =? rn "-") = false.
Proof.
  intros Hd; split; apply Z.eqb_neq; unfold digit_rune;
    destruct (d <? 10); rewrite ?rn_0, ?rn_a; change (rn "+") with 43; change (rn "-") with 45; lia.
Qed.

Lemma ContainsRune_app a b r : ContainsRune (a ++ b) r = ContainsRune a r || ContainsRune b r.
Proof. apply existsb_app. Qed.

Lemma ParseInt_digits b L : 2 <= b <= 36 -> L <> [] -> Forall (fun d => 0 <= d < b /\ d < 36) L ->
  ParseInt (map digit_rune L) b =
  let v := fold_left (fun n d => n * b + d) L 0 in
  if (v <=? maxUint64) && negb (2 ^ 63 <=? v) then (v, None) else (2 ^ 63 - 1, Some ErrRange).
Proof.
  intros Hb HL HF; destruct L as [|d L']; [congruence|].
  inversion HF as [|? ? Hd _]; subst.
  destruct (digit_rune_not_sign d ltac:(lia)) as [Hp Hm].
  unfold ParseInt; cbn [map]; rewrite Hp, Hm; cbn beta iota.
  unfold ParseUint.
  replace ((2 <=? b) && (b <=? 36)) with true by (symmetry; rewrite andb_true_iff, !Z.leb_le; lia).
  change (digit_rune d :: map digit_rune L') with (map digit_rune (d :: L')).
  rewrite loop_digits by (exact HF || (unfold maxUint64; lia)); cbn zeta.
  set (v := fold_left (fun n d => n * b + d) (d :: L') 0).
  destruct (v <=? maxUint64), (2 ^ 63 <=? v); reflexivity.
Qed.

(** [parseUint] on a digit string [ds] of radix [b] followed by [k] signs
    [#]: each [#] counts as a digit 0 and makes the number inexact; the
    value is [float64] of the digits' value when it is below [2^63], and
    otherwise [strconv.ParseInt] fails with [ErrRange] and [parseUint]
    panics. *)
Theorem parseUint_digits b ds k n :
  2 <= b <= 36 -> radixVal n = b -> ds <> [] -> Forall (fun d => 0 <= d < b) ds ->
  parseUint (map digit_rune ds ++ repeat (rn "#") k) n =
  let v := digits_value b ds * b ^ Z.of_nat k in
  if v <? 2 ^ 63 then Ok (float64_of_int v, if (0 <? k)%nat then set_inexact n else n)
  else Panic (PNumError (str "ParseInt") ErrRange).
Proof.
  intros Hb Hn Hne Hds.
  assert (Hds' : Forall (fun d => 0 <= d < b /\ d < 36) (ds ++ repeat 0 k)).
  { apply Forall_app; split.
    - eapply Forall_impl; [|exact Hds]; intros d Hd; cbv beta in *; lia.
    - apply Forall_forall; intros d Hd; apply repeat_spec in Hd; subst d; lia. }
  assert (HC : ContainsRune (map digit_rune ds) (rn "#") = false).
  { clear Hds' Hne; induction Hds as [|d ds Hd _ IH]; [reflexivity|].
    unfold ContainsRune in *; cbn [map existsb]; rewrite digit_rune_not_hash by lia; exact IH. }
  assert (HR : (if ContainsRune (map digit_rune ds ++ repeat (rn "#") k) (rn "#")
                then (ReplaceAllRune (map digit_rune ds ++ repeat (rn "#") k) (rn "#") (rn "0"),
                      set_inexact n)
                else (map digit_rune ds ++ repeat (rn "#") k, n))
               = (map digit_rune (ds ++ repeat 0 k), if (0 <? k)%nat then set_inexact n else n)).
  { destruct k as [|k].
    - cbn [repeat]; rewrite !app_nil_r, HC; reflexivity.
    - replace (ContainsRune _ (rn "#")) with true
        by (rewrite ContainsRune_app, HC; reflexivity).
      unfold ReplaceAllRune; rewrite !map_app, map_map, map_repeat.
      replace (0 <? S k)%nat with true by reflexivity.
      f_equal; f_equal; [|rewrite map_repeat; reflexivity].
      apply map_ext_in; intros d Hd.
      rewrite digit_rune_not_hash; [reflexivity|].
      apply (proj1 (Forall_forall _ _) Hds) in Hd; lia. }
  unfold parseUint; rewrite HR; cbn beta iota.
  set (n1 := if (0 <? k)%nat then set_inexact n else n).
  assert (Hn1 : radixVal n1 = b) by (unfold n1; destruct (0 <? k)%nat; exact Hn).
  rewrite Hn1, ParseInt_digits by (lia || exact Hds' || (destruct ds; [congruence|discriminate])).
  cbn zeta.
  rewrite fold_left_app, fold_zeros; fold (digits_value b ds).
  assert (Hv : 0 <= digits_value b ds * b ^ Z.of_nat k).
  { apply Z.mul_nonneg_nonneg; [|apply Z.pow_nonneg; lia].
    apply fold_digits_ge; [lia|lia|eapply Forall_impl; [|exact Hds]; intros d Hd; cbv beta in *; lia]. }
  set (v := digits_value b ds * b ^ Z.of_nat k) in *.
  destruct (v <? 2 ^ 63) eqn:E.
  - apply Z.ltb_lt in E.
    replace ((v <=? maxUint64) && negb (2 ^ 63 <=? v)) with true
      by (symmetry; rewrite andb_true_iff, negb_true_iff, Z.leb_le, Z.leb_gt; unfold maxUint64; lia).
    replace (v <? 0) with false by (symmetry; apply Z.ltb_ge; lia); reflexivity.
  - apply Z.ltb_ge in E.
    replace ((v <=? maxUint64) && negb (2 ^ 63 <=? v)) with false
      by (symmetry; rewrite andb_false_iff, negb_false_iff, Z.leb_le; right; lia).
    reflexivity.
Qed.

End ParseUintProps.

(** ** [Equals] on a datum and itself *)

Lemma rune_eqs_refl a : rune_eqs a a = true.
Proof. induction a; simpl; [reflexivity|rewrite Z.eqb_refl; exact IHa]. Qed.

Lemma bind_and (r1 r2 : Res bool) :
  (x <- r1 ;; y <- r2 ;; Ok (x && y)) = Ok true <-> r1 = Ok true /\ r2 = Ok true.
Proof.
  destruct r1 as [[|]| |], r2 as [[|]| |]; cbn; intuition congruence.
Qed.

(** [Equals s s] holds exactly when every atom of [s] has a value of
    its own type, every number atom is a number whose real and imaginary
    parts are not NaN, and no vector has a nil element. *)
Theorem Equals_self s : Parser.Equals s (Some s) = Ok true <-> equals_self_ok s = true.
Proof.
  revert s; fix IH 1; intros [t v | car cdr].
  - destruct t, v; cbn [Parser.Equals equals_self_ok Parser.AtomType_eqb negb];
      try (split; intros H; discriminate H).
    + rewrite Bool.eqb_reflx; split; reflexivity.
    + unfold Parser.complex_eqb, PrimFloat.is_nan; rewrite Bool.eqb_reflx, !negb_involutive.
      destruct (isNumber n), (PrimFloat.eqb (fst (complex n)) (fst (complex n))),
        (PrimFloat.eqb (snd (complex n)) (snd (complex n))); split; intros H; reflexivity || discriminate H.
    + rewrite Z.eqb_refl; split; reflexivity.
    + rewrite rune_eqs_refl; split; reflexivity.
    + rewrite rune_eqs_refl; split; reflexivity.
    + rewrite Nat.eqb_refl; cbn [negb].
      revert v; fix IHv 1; intros [|[y|] xs].
      * split; reflexivity.
      * cbv beta iota; cbn [forallb].
        destruct (Parser.Equals y (Some y)) as [[|]| |] eqn:E; cbn [bind].
        -- rewrite (proj1 (IH y) E); exact (IHv xs).
        -- split; intros H; [discriminate H|].
           apply andb_prop in H; destruct H as [H _]; apply IH in H; congruence.
        -- split; intros H; [discriminate H|].
           apply andb_prop in H; destruct H as [H _]; apply IH in H; congruence.
        -- split; intros H; [discriminate H|].
           apply andb_prop in H; destruct H as [H _]; apply IH in H; congruence.
      * split; intros H; discriminate H.
  - cbn [Parser.Equals equals_self_ok].
    rewrite bind_and, andb_true_iff.
    destruct car as [c|], cdr as [d|]; rewrite ?(IH c), ?(IH d); split; intros [A B]; split; auto.
Qed.

(** ** More lexer and parser shapes *)

Section LexerMore.

Lemma skip_app a s :
  (atm_text a = true -> Lexer.skipAtmosphere (a ++ s) = Lexer.skipAtmosphere s) /\
  (comment_text a = true -> Lexer.skipComment (a ++ s) = Lexer.skipAtmosphere s).
Proof.
  induction a as [|c a [IHa IHc]]; split; intros H; try reflexivity; try discriminate H.
  - cbn [app Lexer.skipAtmosphere]; cbn [atm_text] in H.
    destruct (Lexer.isWhitespace c); [exact (IHa H)|].
    destruct (Lexer.isComment c); [exact (IHc H)|discriminate H].
  - cbn [app Lexer.skipComment]; cbn [comment_text] in H.
    destruct (Lexer.isNewline c); [exact (IHa H)|exact (IHc H)].
Qed.

Lemma NextToken_skip_atm a s :
  atm_text a = true -> Lexer.NextToken (a ++ s) = Lexer.NextToken s.
Proof. intros H; unfold Lexer.NextToken; rewrite (proj1 (skip_app a s) H); reflexivity. Qed.

(** Atmosphere before the input does not change what [NextToken] returns. *)
Theorem NextToken_after_atmosphere a s :
  atm_text a = true -> Lexer.NextToken (a ++ s) = Lexer.NextToken s.
Proof. exact (NextToken_skip_atm a s). Qed.

(** On a well-formed source [NextToken] reports [EOF] exactly when the
    whole source is atmosphere (whitespace and newline-terminated
    comments). *)
Theorem NextToken_EOF_iff s : valid_source s ->
  (exists t s', Lexer.NextToken s = Some ((t, Some Lexer.EOF), s')) <-> atm_text s = true.
Proof.
  intros Hv; split.
  - intros [t [s' H]]; exact (NextToken_EOF s t s' Hv H).
  - intros H; exists Lexer.Token0, [].
    unfold Lexer.NextToken; rewrite <- (app_nil_r s), (proj1 (skip_app s []) H); reflexivity.
Qed.

Lemma skipComment_no_newline c :
  forallb (fun r => negb (Lexer.isNewline r)) c = true -> Lexer.skipComment c = None.
Proof.
  induction c as [|r c IH]; intros H; [reflexivity|].
  cbn [forallb] in H; apply andb_prop in H; destruct H as [H1 H2].
  cbn [Lexer.skipComment]; destruct (Lexer.isNewline r); [discriminate H1|exact (IH H2)].
Qed.

(** A comment that is not closed by a newline before the end of the
    input makes [skipAtmosphere] loop for ever: [scanner.EOF] is no
    newline, so [NextToken] never returns. *)
Theorem comment_to_end_diverges a c :
  atm_text a = true -> forallb (fun r => negb (Lexer.isNewline r)) c = true ->
  Lexer.NextToken (a ++ rn ";" :: c) = None.
Proof.
  intros Ha Hc; rewrite (NextToken_skip_atm a _ Ha).
  unfold Lexer.NextToken; cbn [Lexer.skipAtmosphere].
  change (Lexer.isWhitespace (rn ";")) with false; change (Lexer.isComment (rn ";")) with true.
  cbv iota; rewrite (skipComment_no_newline c Hc); reflexivity.
Qed.

Lemma scanString_loop_no_quote p c : ContainsRune c Lexer.dquote = false ->
  Lexer.scanString_loop p c = (None, []).
Proof.
  revert p; induction c as [|r c IH]; intros p H; [reflexivity|].
  unfold ContainsRune in H; cbn [existsb] in H; apply orb_false_elim in H; destruct H as [H1 H2].
  cbn [Lexer.scanString_loop]; rewrite H1, andb_false_r, (IH r H2); reflexivity.
Qed.

(** A string with no closing double quote ends the input with an
    empty token and [UNEXPECTED_EOF]. *)
Theorem unterminated_string a c :
  atm_text a = true -> ContainsRune c Lexer.dquote = false ->
  Lexer.NextToken (a ++ Lexer.dquote :: c) = Some ((Lexer.Token0, Some Lexer.UNEXPECTED_EOF), []).
Proof.
  intros Ha Hc; rewrite (NextToken_skip_atm a _ Ha).
  change (Lexer.NextToken (Lexer.dquote :: c)) with (Some (Lexer.scanString c)).
  unfold Lexer.scanString; rewrite (scanString_loop_no_quote _ c Hc); reflexivity.
Qed.

Lemma encode_rune_length r : (length (Parser.encode_rune r) <= 4)%nat.
Proof.
  unfold Parser.encode_rune.
  destruct (Lexer.WriteRune r <? 128); [simpl; lia|].
  destruct (Lexer.WriteRune r <? 2048); [simpl; lia|].
  destruct (Lexer.WriteRune r <? 65536); simpl; lia.
Qed.

Lemma rune_eqs_length a b : rune_eqs a b = true -> length a = length b.
Proof.
  revert b; induction a as [|x a IH]; intros [|y b] H; try discriminate H; [reflexivity|].
  cbn [rune_eqs] in H; apply andb_prop in H; cbn [length]; f_equal; apply IH, H.
Qed.

(** A character [#\c] followed by a delimiter is one [CHAR] token, which
    [parseChar] reads back as [c]. *)
Theorem char_literal_round_trip c s :
  Lexer.valid_rune c = true -> Lexer.isDelimiter (Lexer.Peek s) = true ->
  Lexer.NextToken (rn "#" :: Lexer.backslash :: c :: s) =
    Some ((Lexer.mkToken Lexer.CHAR [rn "#"; Lexer.backslash; c], None), s) /\
  Parser.parseChar [rn "#"; Lexer.backslash; c] = Ok c.
Proof.
  intros Hc Hd; split.
  - change (Lexer.NextToken (rn "#" :: Lexer.backslash :: c :: s)) with
      (Some (if Lexer.isDelimiter (Lexer.Peek s)
             then ((Lexer.mkToken Lexer.CHAR [rn "#"; Lexer.backslash; Lexer.WriteRune c], None), s)
             else Lexer.scanNchar c s)).
    rewrite Hd, WriteRune_valid by exact Hc; reflexivity.
  - unfold Parser.parseChar.
    change (Parser.bytes [rn "#"; Lexer.backslash; c]) with (35 :: 92 :: Parser.encode_rune c ++ []).
    rewrite app_nil_r; cbn [length skipn Nat.ltb Nat.leb].
    pose proof (encode_rune_length c) as Hl.
    destruct (rune_eqs (Parser.encode_rune c) (Parser.bytes (str "space"))) eqn:E1.
    { apply rune_eqs_length in E1; unfold rune in E1; rewrite E1 in Hl.
      change (length (Parser.bytes (str "space"))) with 5%nat in Hl; lia. }
    destruct (rune_eqs (Parser.encode_rune c) (Parser.bytes (str "newline"))) eqn:E2.
    { apply rune_eqs_length in E2; unfold rune in E2; rewrite E2 in Hl.
      change (length (Parser.bytes (str "newline"))) with 7%nat in Hl; lia. }
    change (Parser.rune_at_offset2 0 [rn "#"; Lexer.backslash; c]) with (Lexer.WriteRune c).
    rewrite WriteRune_valid by exact Hc; reflexivity.
Qed.

(** [#t] and [#f] are read as two-rune [BOOL] tokens whatever follows
    them, and [parseBool] gives [true] and [false] for them. *)
Theorem bool_literal s :
  Lexer.NextToken (str "#t" ++ s) = Some ((Lexer.mkToken Lexer.BOOL (str "#t"), None), s) /\
  Lexer.NextToken (str "#f" ++ s) = Some ((Lexer.mkToken Lexer.BOOL (str "#f"), None), s) /\
  Parser.parseBool (str "#t") = Ok true /\ Parser.parseBool (str "#f") = Ok false.
Proof. repeat split. Qed.

End LexerMore.

Section ParserShapes.

Variables math_Sin math_Cos : float -> float.

Local Abbreviation PNN := (Parser.ParseNextNode math_Sin math_Cos).
Local Abbreviation vLoop := (Parser.vectorLoop math_Sin math_Cos).
Local Abbreviation lLoop := (Parser.listLoop math_Sin math_Cos).
Local Abbreviation loop := (Parser.parse_loop math_Sin math_Cos).

#[local] Arguments Parser.is_type : simpl never.
#[local] Arguments Parser.parseNumber : simpl never.

Local Open Scope nat_scope.

Lemma vLoop_fuel_le f f' ts i v : f <= f' -> res_le (vLoop f ts i v) (vLoop f' ts i v).
Proof.
  induction 1; [apply res_le_refl|].
  eapply res_le_trans; [eassumption|apply parser_fuel_step].
Qed.

Lemma vLoop_lift f f' ts i v r : f <= f' -> vLoop f ts i v = Ok r -> vLoop f' ts i v = Ok r.
Proof. intros Hf; apply res_le_Ok, vLoop_fuel_le, Hf. Qed.

Lemma PNN_nonempty f d x j : PNN f d 0 = Ok (x, j) -> exists t d', d = t :: d'.
Proof.
  destruct f as [|f]; [discriminate|]; rewrite PNN_S.
  destruct d as [|t d']; [intros H; discriminate H|eauto].
Qed.

Lemma not_RPAREN t : Lexer.Type_ t <> Lexer.RPAREN -> Parser.is_type Lexer.RPAREN t = false.
Proof. unfold Parser.is_type; destruct (Lexer.Type_ t); congruence. Qed.

Lemma vector_loop_items ds xs :
  Forall2 (fun d x => (exists f, PNN f d 0 = Ok (x, length d)) /\
                      forall t, hd_error d = Some t -> Lexer.Type_ t <> Lexer.RPAREN) ds xs ->
  forall pre post rp acc, Parser.is_type Lexer.RPAREN rp = true ->
  exists f, vLoop f (pre ++ concat ds ++ rp :: post) (length pre) acc
    = Ok (acc ++ xs, length pre + length (concat ds)).
Proof.
  induction 1 as [|d x ds xs [[f1 Hd] Hh] HF IH]; intros pre post rp acc Hrp.
  - exists 1; simpl; rewrite at_app_length; cbn [bind]; rewrite Hrp.
    rewrite app_nil_r, Nat.add_0_r; reflexivity.
  - destruct (IH (pre ++ d) post rp (acc ++ [x]) Hrp) as [f2 Hf2].
    destruct (PNN_nonempty _ _ _ _ Hd) as [t [d' Ed]].
    assert (Hat : Parser.at_ (pre ++ d ++ concat ds ++ rp :: post) (length pre) = Ok t)
      by (rewrite Ed; apply at_app_length).
    pose proof (proj1 (parser_ctx math_Sin math_Cos pre (concat ds ++ rp :: post) f1) _ _ _ _ Hd) as [Hc _].
    unfold ctx, k in Hc; rewrite Nat.add_0_r in Hc.
    exists (S (Nat.max f1 f2)).
    simpl Parser.vectorLoop; cbn [concat].
    rewrite <- app_assoc, Hat; cbn [bind].
    rewrite (not_RPAREN t (Hh t ltac:(rewrite Ed; reflexivity))).
    rewrite (PNN_lift _ _ f1 (Nat.max f1 f2) _ _ _ ltac:(lia) Hc); cbn [bind].
    rewrite <- app_assoc in Hf2; rewrite length_app in Hf2.
    rewrite (vLoop_lift f2 (Nat.max f1 f2) _ _ _ _ ltac:(lia) Hf2).
    rewrite <- app_assoc, length_app, Nat.add_assoc; reflexivity.
Qed.

(** A vector [#( d1 ... dn )] whose items each parse on their own to
    [xi] and do not start with [RPAREN] gives the vector atom of [x1 ... xn],
    having consumed every token; an item such as [DOT] gives a nil
    element. *)
Theorem vector_items hp rp ds xs :
  Lexer.Type_ hp = Lexer.HPAREN -> Lexer.Type_ rp = Lexer.RPAREN ->
  Forall2 (fun d x => (exists f, Parser.ParseNextNode math_Sin math_Cos f d 0 = Ok (x, length d)) /\
                      forall t, hd_error d = Some t -> Lexer.Type_ t <> Lexer.RPAREN) ds xs ->
  exists f, Parser.ParseNextNode math_Sin math_Cos f (hp :: concat ds ++ [rp]) 0
    = Ok (Some (Parser.Atom Parser.VECTOR (Parser.VVector xs)), 2 + length (concat ds)).
Proof.
  intros Hhp Hrp HF.
  assert (Hr : Parser.is_type Lexer.RPAREN rp = true) by (unfold Parser.is_type; rewrite Hrp; reflexivity).
  destruct (vector_loop_items ds xs HF [hp] [] rp [] Hr) as [f Hf].
  exists (S (S f)).
  cbn [app length] in Hf.
  rewrite PNN_S; unfold Parser.at_; cbn [nth_error bind]; rewrite Hhp.
  change (Parser.parseVector math_Sin math_Cos (S f) (hp :: concat ds ++ [rp]) 0)
    with (vLoop f (hp :: concat ds ++ [rp]) 1 []).
  rewrite Hf; reflexivity.
Qed.

Lemma parse_loop_items ds xs :
  Forall2 (fun d x => exists f, PNN f d 0 = Ok (x, length d)) ds xs ->
  forall pre, exists f, loop f (pre ++ concat ds) (length pre) = Ok xs.
Proof.
  induction 1 as [|d x ds xs [f1 Hd] HF IH]; intros pre.
  - exists 1; cbn [concat]; rewrite app_nil_r; cbn [Parser.parse_loop].
    rewrite Nat.ltb_irrefl; reflexivity.
  - destruct (IH (pre ++ d)) as [f2 Hf2].
    pose proof (proj1 (parser_ctx math_Sin math_Cos pre (concat ds) f1) _ _ _ _ Hd) as [Hc Hnz].
    unfold ctx, k in Hc; rewrite Nat.add_0_r in Hc.
    exists (S (Nat.max f1 f2)).
    cbn [concat Parser.parse_loop].
    replace (length pre <? length (pre ++ d ++ concat ds)) with true
      by (symmetry; apply Nat.ltb_lt; rewrite !length_app; lia).
    rewrite (PNN_lift _ _ f1 (Nat.max f1 f2) _ _ _ ltac:(lia) Hc); cbn [bind].
    rewrite <- app_assoc, length_app in Hf2.
    rewrite (res_le_Ok _ _ _ (parse_loop_fuel_le _ _ f2 (Nat.max f1 f2) _ _ ltac:(lia)) Hf2).
    reflexivity.
Qed.

(** [Parse] on the concatenated tokens of items that each parse on their
    own gives their results in order. *)
Theorem parse_sequence ds xs :
  Forall2 (fun d x => exists f, PNN f d 0 = Ok (x, length d)) ds xs ->
  exists f, Parser.ParseTokens math_Sin math_Cos f (concat ds) = Ok xs.
Proof. intros HF; exact (parse_loop_items ds xs HF []). Qed.

Lemma list_loop_prefix ds ss :
  Forall2 (fun d s => exists f, PNN f d 0 = Ok (Some s, length d)) ds ss ->
  forall pre post acc prev, exists m, forall g, m <= g ->
  lLoop (length ds + g) (pre ++ concat ds ++ post) (length pre) (chain_heap 0 acc) prev (length acc)
  = lLoop g (pre ++ concat ds ++ post) (length pre + length (concat ds)) (chain_heap 0 (acc ++ ss))
      (match ss with [] => prev | _ => Some (pred (length (acc ++ ss))) end) (length (acc ++ ss)).
Proof.
  induction 1 as [|d s ds ss [f1 Hd] HF IH]; intros pre post acc prev.
  - exists 0; intros g _; cbn [concat length]; rewrite !app_nil_r, Nat.add_0_r; reflexivity.
  - destruct (IH (pre ++ d) post (acc ++ [s]) (Some (length acc))) as [m Hm].
    destruct (datum_first _ _ _ _ _ _ _ Hd) as [t [Ht [Htr Htd]]].
    pose proof (proj1 (parser_ctx math_Sin math_Cos pre (concat ds ++ post) f1) _ _ _ _ Hd) as [Hc _].
    pose proof (at_ctx pre (concat ds ++ post) _ _ _ Ht) as Hat.
    unfold ctx, k in Hc, Hat; rewrite Nat.add_0_r in Hc, Hat.
    exists (Nat.max f1 m); intros g Hg.
    cbn [length Nat.add]; simpl Parser.listLoop; cbn [concat]; rewrite <- app_assoc, Hat; cbn [bind].
    rewrite Htr, Htd; cbn [bind].
    rewrite (PNN_lift _ _ f1 (length ds + g) _ _ _ ltac:(lia) Hc); cbn [bind].
    assert (Hl : length (Parser.set_car (chain_heap 0 acc) (length acc) (Some s)) = S (length acc))
      by (unfold Parser.set_car; rewrite update_length, chain_heap_length; reflexivity).
    rewrite Hl.
    replace (S (length acc)) with (0 + S (length acc)) by reflexivity.
    rewrite chain_heap_step, Nat.add_0_l.
    replace (S (length acc)) with (length (acc ++ [s])) by (rewrite length_app; simpl; lia).
    specialize (Hm g ltac:(lia)).
    rewrite <- !app_assoc, length_app in Hm.
    rewrite Hm, (length_app d), Nat.add_assoc; cbn [app].
    destruct ss; rewrite ?app_nil_r, ?length_app; cbn [length]; f_equal; f_equal; lia.
Qed.

Lemma PNN_all_fuel ts i F r : PNN F ts i = r -> r <> OutOfFuel ->
  forall f, PNN f ts i = OutOfFuel \/ PNN f ts i = r.
Proof.
  intros HF Hr f.
  destruct (PNN_fuel_le math_Sin math_Cos F (Nat.max f F) ts i ltac:(lia)) as [E|E]; [congruence|].
  destruct (PNN_fuel_le math_Sin math_Cos f (Nat.max f F) ts i ltac:(lia)) as [E'|E']; [left; exact E'|].
  right; congruence.
Qed.

(** One step of [listLoop]. *)
Lemma lLoop_S f ts i h previousNode currentNode :
  lLoop (S f) ts i h previousNode currentNode =
  (node <- Parser.at_ ts i ;;
   if Parser.is_type Lexer.RPAREN node then Ok (h, i) else
   '(h, i) <-
     (if Parser.is_type Lexer.DOT node then
        '(x, i) <- PNN f ts (S i) ;;
        match previousNode with
        | None => Parser.nil_panic
        | Some pn =>
          let h := Parser.set_cdr h pn (Parser.link_of x) in
          node <- Parser.at_ ts i ;;
          if negb (Parser.is_type Lexer.RPAREN node) then Panic (PString (str "list end expected"))
          else Ok (h, i)
        end
      else Ok (h, i)) ;;
   '(x, i) <- PNN f ts i ;;
   let h := Parser.set_car h currentNode x in
   let nw := length h in
   let h := Parser.set_cdr (h ++ [Parser.mkCell None Parser.LNil]) currentNode (Parser.LCell nw) in
   lLoop f ts i h (Some currentNode) nw).
Proof. reflexivity. Qed.

Lemma is_type_self ty t : Lexer.Type_ t = ty -> Parser.is_type ty t = true.
Proof. intros <-; unfold Parser.is_type; destruct (Lexer.Type_ t); reflexivity. Qed.

Lemma is_type_RPAREN_DOT t : Lexer.Type_ t = Lexer.DOT -> Parser.is_type Lexer.RPAREN t = false.
Proof. unfold Parser.is_type; intros ->; reflexivity. Qed.

(** A list whose first token after [LPAREN] is [DOT] never parses: the
    dot's [previousNode] is nil. *)
Theorem list_dot_first lp dot rest :
  Lexer.Type_ lp = Lexer.LPAREN -> Lexer.Type_ dot = Lexer.DOT ->
  forall f r, Parser.ParseNextNode math_Sin math_Cos f (lp :: dot :: rest) 0 <> Ok r.
Proof.
  intros Hlp Hdot f r.
  destruct f as [|f]; [discriminate|].
  rewrite PNN_S; unfold Parser.at_ at 1; cbn [nth_error bind]; rewrite Hlp.
  destruct f as [|f]; [discriminate|].
  rewrite pList_S.
  destruct f as [|f]; [discriminate|].
  rewrite lLoop_S; unfold Parser.at_ at 1; cbn [nth_error bind].
  rewrite (is_type_RPAREN_DOT dot Hdot), (is_type_self _ dot Hdot).
  destruct (PNN f _ 2) as [[x j]| |]; cbn [bind]; discriminate.
Qed.

Lemma at_dotted lp ds dot e t post :
  Parser.at_ (lp :: concat ds ++ dot :: e ++ t :: post) (S (length (concat ds))) = Ok dot /\
  Parser.at_ (lp :: concat ds ++ dot :: e ++ t :: post) (S (S (length (concat ds) + length e))) = Ok t.
Proof.
  split.
  - exact (at_app_length (lp :: concat ds) dot (e ++ t :: post)).
  - replace (lp :: concat ds ++ dot :: e ++ t :: post) with ((lp :: concat ds ++ [dot] ++ e) ++ t :: post)
      by (cbn [app]; rewrite <- !app_assoc; reflexivity).
    replace (S (S (length (concat ds) + length e))) with (length (lp :: concat ds ++ [dot] ++ e))
      by (cbn [length]; rewrite !length_app; cbn [length]; lia).
    apply at_app_length.
Qed.

Lemma PNN_dotted_cdr lp ds dot e t post fe x :
  PNN fe e 0 = Ok (x, length e) ->
  PNN fe (lp :: concat ds ++ dot :: e ++ t :: post) (S (S (length (concat ds))))
  = Ok (x, S (S (length (concat ds) + length e))).
Proof.
  intros He.
  pose proof (proj1 (parser_ctx math_Sin math_Cos (lp :: concat ds ++ [dot]) (t :: post) fe) _ _ _ _ He) as [Hc _].
  unfold ctx, k in Hc.
  replace ((lp :: concat ds ++ [dot]) ++ e ++ t :: post) with (lp :: concat ds ++ dot :: e ++ t :: post) in Hc
    by (cbn [app]; rewrite <- !app_assoc; reflexivity).
  replace (length (lp :: concat ds ++ [dot])) with (S (S (length (concat ds)))) in Hc
    by (cbn [length]; rewrite length_app; cbn [length]; lia).
  rewrite Nat.add_0_r in Hc; rewrite Hc; f_equal; f_equal; lia.
Qed.

(** After the datum that follows a [DOT] in a list, a token other than
    [RPAREN] makes [parseList] panic with "list end expected". *)
Theorem list_end_expected lp dot t ds ss e x post :
  Lexer.Type_ lp = Lexer.LPAREN -> Lexer.Type_ dot = Lexer.DOT -> Lexer.Type_ t <> Lexer.RPAREN ->
  Forall2 (fun d s => exists f, PNN f d 0 = Ok (Some s, length d)) ds ss -> ss <> [] ->
  (exists f, PNN f e 0 = Ok (x, length e)) ->
  forall f, PNN f (lp :: concat ds ++ dot :: e ++ t :: post) 0 = OutOfFuel \/
            PNN f (lp :: concat ds ++ dot :: e ++ t :: post) 0 = Panic (PString (str "list end expected")).
Proof.
  intros Hlp Hdot Ht HF Hss [fe He].
  destruct (list_loop_prefix ds ss HF [lp] (dot :: e ++ t :: post) [] None) as [m Hm].
  apply (PNN_all_fuel _ _ (S (S (length ds + S (Nat.max m fe))))); [|discriminate].
  specialize (Hm (S (Nat.max m fe)) ltac:(lia)).
  destruct ss as [|s0 ss']; [congruence|].
  cbn [app length chain_heap Nat.add] in Hm.
  destruct (at_dotted lp ds dot e t post) as [Hd Ht'].
  rewrite PNN_S; unfold Parser.at_ at 1; cbn [nth_error bind]; rewrite Hlp, pList_S, Hm, lLoop_S, Hd.
  cbn [bind]; rewrite (is_type_RPAREN_DOT dot Hdot), (is_type_self _ dot Hdot).
  rewrite (PNN_lift _ _ fe (Nat.max m fe) _ _ _ ltac:(lia) (PNN_dotted_cdr lp ds dot e t post fe x He)).
  cbn [bind]; rewrite Ht'; cbn [bind]; rewrite (not_RPAREN t Ht); reflexivity.
Qed.

(** A dotted list [(d1 ... dn . e)] with [n >= 1] at the end of the
    input never parses: after checking the [RPAREN] the loop goes on, takes
    that [RPAREN] as one more (nil) element and reads past the last
    token. *)
Theorem dotted_list_at_end lp dot rp ds ss e x :
  Lexer.Type_ lp = Lexer.LPAREN -> Lexer.Type_ dot = Lexer.DOT -> Lexer.Type_ rp = Lexer.RPAREN ->
  Forall2 (fun d s => exists f, PNN f d 0 = Ok (Some s, length d)) ds ss -> ss <> [] ->
  (exists f, PNN f e 0 = Ok (x, length e)) ->
  forall f, PNN f (lp :: concat ds ++ dot :: e ++ [rp]) 0 = OutOfFuel \/
            PNN f (lp :: concat ds ++ dot :: e ++ [rp]) 0 = Parser.index_panic.
Proof.
  intros Hlp Hdot Hrp HF Hss [fe He].
  destruct (list_loop_prefix ds ss HF [lp] (dot :: e ++ [rp]) [] None) as [m Hm].
  apply (PNN_all_fuel _ _ (S (S (length ds + S (S (Nat.max m fe)))))); [|discriminate].
  specialize (Hm (S (S (Nat.max m fe))) ltac:(lia)).
  destruct ss as [|s0 ss']; [congruence|].
  cbn [app length chain_heap Nat.add] in Hm.
  destruct (at_dotted lp ds dot e rp []) as [Hd Ht'].
  assert (Hend : Parser.at_ (lp :: concat ds ++ dot :: e ++ [rp]) (S (S (S (length (concat ds) + length e))))
                 = Parser.index_panic).
  { unfold Parser.at_; rewrite (proj2 (nth_error_None _ _)); [reflexivity|].
    cbn [length]; rewrite length_app; cbn [length]; rewrite length_app; cbn [length]; lia. }
  rewrite PNN_S; unfold Parser.at_ at 1; cbn [nth_error bind]; rewrite Hlp, pList_S, Hm, lLoop_S, Hd.
  cbn [bind]; rewrite (is_type_RPAREN_DOT dot Hdot), (is_type_self _ dot Hdot).
  rewrite (PNN_lift _ _ fe (S (Nat.max m fe)) _ _ _ ltac:(lia) (PNN_dotted_cdr lp ds dot e rp [] fe x He)).
  cbn [bind]; rewrite Ht'; cbn [bind]; rewrite (is_type_self _ rp Hrp); cbn [negb bind].
  rewrite PNN_S, Ht'; cbn [bind]; rewrite Hrp; cbn [bind].
  rewrite lLoop_S, Hend; reflexivity.
Qed.

End ParserShapes.

(** * Concrete runs *)

Lemma proper_list_chain_witness :
  let lp := Lexer.mkToken Lexer.LPAREN (str "(") in
  let rp := Lexer.mkToken Lexer.RPAREN (str ")") in
  let ds := [[Lexer.mkToken Lexer.IDENT (str "a")]; [Lexer.mkToken Lexer.IDENT (str "b")]] in
  let ss := [Parser.Atom Parser.SYMBOL (Parser.VString (str "a"));
             Parser.Atom Parser.SYMBOL (Parser.VString (str "b"))] in
  Lexer.Type_ lp = Lexer.LPAREN /\ Lexer.Type_ rp = Lexer.RPAREN /\
  Forall2 (fun d s => exists f, Parser.ParseNextNode (fun x => x) (fun x => x) f d 0 = Ok (Some s, length d)) ds ss /\
  exists f r, Parser.ParseNextNode (fun x => x) (fun x => x) f (lp :: concat ds ++ [rp]) 0
      = Ok (Some r, (2 + length (concat ds))%nat) /\
    r = pair_chain (map Some ss) /\ proper_list_elems r = Some (map Some ss) /\
    length ss = length ds.
Proof.
  intros lp rp ds ss.
  assert (HF : Forall2 (fun d s => exists f, Parser.ParseNextNode (fun x => x) (fun x => x) f d 0
                                             = Ok (Some s, length d)) ds ss)
    by (apply Forall2_cons; [exists 1%nat; reflexivity|];
        apply Forall2_cons; [exists 1%nat; reflexivity|]; apply Forall2_nil).
  refine (conj eq_refl (conj eq_refl (conj HF _))).
  exact (proper_list_chain (fun x => x) (fun x => x) lp rp ds ss eq_refl eq_refl HF).
Defined.

(** C1: on [LPAREN a DOT b RPAREN] the parser never returns
    [Pair(Atom(SYMBOL,a), Atom(SYMBOL,b))] after five tokens, whatever the
    fuel: once the cdr [b] is spliced and the [RPAREN] checked, the loop
    goes on to parse that [RPAREN] as the next car and then reads
    [Tokens[5]], which is out of range. *)
Lemma dotted_pair_counterexample :
  (forall f, Parser.ParseNextNode (fun x => x) (fun x => x) f dotted_pair_tokens 0 <>
     Ok (Some (Parser.Expr (Some (Parser.Atom Parser.SYMBOL (Parser.VString (str "a"))))
                           (Some (Parser.Atom Parser.SYMBOL (Parser.VString (str "b"))))), 5%nat)) /\
  Parser.ParseNextNode (fun x => x) (fun x => x) 20 dotted_pair_tokens 0 = Parser.index_panic.
Proof.
  assert (HP : Parser.ParseNextNode (fun x => x) (fun x => x) 20 dotted_pair_tokens 0 = Parser.index_panic)
    by (vm_compute; reflexivity).
  split; [|exact HP].
  intros f Hf.
  pose proof (res_le_Ok _ _ _ (PNN_fuel_le (fun x => x) (fun x => x) f (Nat.max f 20) _ 0
                                 ltac:(lia)) Hf) as H1.
  destruct (PNN_fuel_le (fun x => x) (fun x => x) 20 (Nat.max f 20) dotted_pair_tokens 0 ltac:(lia))
    as [H2|H2]; rewrite HP in H2; [discriminate|].
  rewrite <- H2 in H1; discriminate.
Qed.

(** C6: on the input [+] the next rune is [scanner.EOF], which
    [isDelimiter] does not accept, so [NextToken] scans a number and fails
    with [INVALID_NUMBER] instead of giving [IDENT("+")]. *)
Lemma plus_eof_counterexample :
  Lexer.NextToken (str "+") = Some ((Lexer.Token0, Some Lexer.INVALID_NUMBER), []) /\
  forall rest, Lexer.NextToken (str "+") <> Some ((Lexer.mkToken Lexer.IDENT (str "+"), None), rest).
Proof.
  assert (H : Lexer.NextToken (str "+") = Some ((Lexer.Token0, Some Lexer.INVALID_NUMBER), []))
    by (vm_compute; reflexivity).
  split; [exact H|]; intros rest; rewrite H; discriminate.
Qed.

Lemma abbrev_as_list_witness :
  In (Lexer.SQUOTE, str "'", str "quote") abbreviations /\
  Lexer.Type_ (Lexer.mkToken Lexer.LPAREN (str "(")) = Lexer.LPAREN /\
  Lexer.Type_ (Lexer.mkToken Lexer.RPAREN (str ")")) = Lexer.RPAREN /\
  (exists f, Parser.ParseNextNode (fun x => x) (fun x => x) f [Lexer.mkToken Lexer.IDENT (str "a")] 0
             = Ok (Some (Parser.Atom Parser.SYMBOL (Parser.VString (str "a"))), 1%nat)) /\
  exists f g r,
    Parser.ParseNextNode (fun x => x) (fun x => x) f
      (Lexer.mkToken Lexer.SQUOTE (str "'") :: [Lexer.mkToken Lexer.IDENT (str "a")]) 0
    = Ok (Some r, 2%nat) /\
    Parser.ParseNextNode (fun x => x) (fun x => x) g
      (Lexer.mkToken Lexer.LPAREN (str "(") :: Lexer.mkToken Lexer.IDENT (str "quote")
       :: [Lexer.mkToken Lexer.IDENT (str "a")] ++ [Lexer.mkToken Lexer.RPAREN (str ")")]) 0
    = Ok (Some r, 4%nat) /\
    r = Parser.Expr (Some (Parser.Atom Parser.SYMBOL (Parser.VString (str "quote"))))
          (Some (Parser.Expr (Some (Parser.Atom Parser.SYMBOL (Parser.VString (str "a"))))
                             (Some Parser.EmptyPair))).
Proof.
  assert (Hin : In (Lexer.SQUOTE, str "'", str "quote") abbreviations) by (left; reflexivity).
  assert (Hx : exists f, Parser.ParseNextNode (fun x => x) (fun x => x) f [Lexer.mkToken Lexer.IDENT (str "a")] 0
             = Ok (Some (Parser.Atom Parser.SYMBOL (Parser.VString (str "a"))), 1%nat))
    by (exists 1%nat; reflexivity).
  refine (conj Hin (conj eq_refl (conj eq_refl (conj Hx _)))).
  exact (abbrev_as_list (fun x => x) (fun x => x) _ _ _ (Lexer.mkToken Lexer.LPAREN (str "(")) (Lexer.mkToken Lexer.RPAREN (str ")")) _ _ Hin eq_refl eq_refl Hx).
Defined.

(** C5: [Equals] is not reflexive on numbers: for the datum [0/0], whose
    value is NaN, the abbreviation ['0/0] and the list [(quote 0/0)] parse
    to the same tree, yet [Equals] of the two is [false]. *)
Lemma abbrev_equals_counterexample :
  exists a,
    Parser.ParseNextNode (fun x => x) (fun x => x) 10
      [Lexer.mkToken Lexer.SQUOTE (str "'"); Lexer.mkToken Lexer.NUMBER (str "0/0")] 0
    = Ok (Some a, 2%nat) /\
    Parser.ParseNextNode (fun x => x) (fun x => x) 10
      [Lexer.mkToken Lexer.LPAREN (str "("); Lexer.mkToken Lexer.IDENT (str "quote");
       Lexer.mkToken Lexer.NUMBER (str "0/0"); Lexer.mkToken Lexer.RPAREN (str ")")] 0
    = Ok (Some a, 4%nat) /\
    Parser.Equals a (Some a) = Ok false.
Proof.
  eexists; split; [vm_compute; reflexivity|].
  split; vm_compute; reflexivity.
Qed.

Lemma parse_keeps_literal_witness :
  let n' := mkNumber (str "#x#i1f") (float64_of_int 31, zero) true true 16 in
  Parse (fun x => x) (fun x => x) (NewFromLiteral (str "#x#i1f")) = Ok n' /\
  literal n' = literal (NewFromLiteral (str "#x#i1f")) /\
  isNumber n' = isNumber (NewFromLiteral (str "#x#i1f")) /\
  (inexact (NewFromLiteral (str "#x#i1f")) = true -> inexact n' = true) /\
  (radixVal n' = 2 \/ radixVal n' = 8 \/ radixVal n' = 10 \/ radixVal n' = 16).
Proof.
  intros n'.
  assert (H : Parse (fun x => x) (fun x => x) (NewFromLiteral (str "#x#i1f")) = Ok n')
    by (vm_compute; reflexivity).
  exact (conj H (parse_keeps_literal _ _ _ _ H)).
Defined.

Lemma parseUint_digits_witness :
  let n := mkNumber [] (zero, zero) false true 16 in
  (2 <= 16 <= 36) /\ radixVal n = 16 /\ [1; 15] <> [] /\ Forall (fun d => 0 <= d < 16) [1; 15] /\
  parseUint (map digit_rune [1; 15] ++ repeat (rn "#") 1) n =
  (let v := digits_value 16 [1; 15] * 16 ^ Z.of_nat 1 in
   if v <? 2 ^ 63 then Ok (float64_of_int v, if (0 <? 1)%nat then set_inexact n else n)
   else Panic (PNumError (str "ParseInt") ErrRange)).
Proof.
  intros n.
  assert (H1 : 2 <= 16 <= 36) by lia.
  assert (H2 : radixVal n = 16) by reflexivity.
  assert (H3 : [1; 15] <> []) by discriminate.
  assert (H4 : Forall (fun d => 0 <= d < 16) [1; 15]) by (repeat constructor; lia).
  exact (conj H1 (conj H2 (conj H3 (conj H4 (parseUint_digits 16 [1; 15] 1 n H1 H2 H3 H4))))).
Defined.

Lemma NextToken_after_atmosphere_witness :
  atm_text (str " ;c" ++ [10]) = true /\
  Lexer.NextToken ((str " ;c" ++ [10]) ++ str "(a") = Lexer.NextToken (str "(a").
Proof.
  assert (H : atm_text (str " ;c" ++ [10]) = true) by reflexivity.
  exact (conj H (NextToken_after_atmosphere _ _ H)).
Defined.

Lemma NextToken_EOF_iff_witness :
  valid_source (str "  ") /\
  ((exists t s', Lexer.NextToken (str "  ") = Some ((t, Some Lexer.EOF), s')) <-> atm_text (str "  ") = true).
Proof.
  assert (H : valid_source (str "  ")) by (repeat constructor).
  exact (conj H (NextToken_EOF_iff _ H)).
Defined.

Lemma comment_to_end_diverges_witness :
  atm_text (str " ") = true /\ forallb (fun r => negb (Lexer.isNewline r)) (str "ab") = true /\
  Lexer.NextToken (str " " ++ rn ";" :: str "ab") = None.
Proof.
  assert (H1 : atm_text (str " ") = true) by reflexivity.
  assert (H2 : forallb (fun r => negb (Lexer.isNewline r)) (str "ab") = true) by reflexivity.
  exact (conj H1 (conj H2 (comment_to_end_diverges _ _ H1 H2))).
Defined.

Lemma unterminated_string_witness :
  atm_text (str " ") = true /\ ContainsRune (str "ab") Lexer.dquote = false /\
  Lexer.NextToken (str " " ++ Lexer.dquote :: str "ab") = Some ((Lexer.Token0, Some Lexer.UNEXPECTED_EOF), []).
Proof.
  assert (H1 : atm_text (str " ") = true) by reflexivity.
  assert (H2 : ContainsRune (str "ab") Lexer.dquote = false) by reflexivity.
  exact (conj H1 (conj H2 (unterminated_string _ _ H1 H2))).
Defined.

Lemma char_literal_round_trip_witness :
  Lexer.valid_rune (rn "a") = true /\ Lexer.isDelimiter (Lexer.Peek (str ")")) = true /\
  Lexer.NextToken (rn "#" :: Lexer.backslash :: rn "a" :: str ")") =
    Some ((Lexer.mkToken Lexer.CHAR [rn "#"; Lexer.backslash; rn "a"], None), str ")") /\
  Parser.parseChar [rn "#"; Lexer.backslash; rn "a"] = Ok (rn "a").
Proof.
  assert (H1 : Lexer.valid_rune (rn "a") = true) by reflexivity.
  assert (H2 : Lexer.isDelimiter (Lexer.Peek (str ")")) = true) by reflexivity.
  exact (conj H1 (conj H2 (char_literal_round_trip _ _ H1 H2))).
Defined.

Lemma vector_items_witness :
  let hp := Lexer.mkToken Lexer.HPAREN (str "#(") in
  let rp := Lexer.mkToken Lexer.RPAREN (str ")") in
  let ds := [[Lexer.mkToken Lexer.IDENT (str "a")]; [Lexer.mkToken Lexer.DOT (str ".")]] in
  let xs := [Some (Parser.Atom Parser.SYMBOL (Parser.VString (str "a"))); None] in
  Lexer.Type_ hp = Lexer.HPAREN /\ Lexer.Type_ rp = Lexer.RPAREN /\
  Forall2 (fun d x => (exists f, Parser.ParseNextNode (fun x => x) (fun x => x) f d 0 = Ok (x, length d)) /\
                      forall t, hd_error d = Some t -> Lexer.Type_ t <> Lexer.RPAREN) ds xs /\
  exists f, Parser.ParseNextNode (fun x => x) (fun x => x) f (hp :: concat ds ++ [rp]) 0
    = Ok (Some (Parser.Atom Parser.VECTOR (Parser.VVector xs)), (2 + length (concat ds))%nat).
Proof.
  intros hp rp ds xs.
  assert (HF : Forall2 (fun d x => (exists f, Parser.ParseNextNode (fun x => x) (fun x => x) f d 0
                                            = Ok (x, length d)) /\
                      forall t, hd_error d = Some t -> Lexer.Type_ t <> Lexer.RPAREN) ds xs).
  { apply Forall2_cons; [split; [exists 1%nat; reflexivity|intros t Ht; injection Ht as <-; discriminate]|].
    apply Forall2_cons; [split; [exists 1%nat; reflexivity|intros t Ht; injection Ht as <-; discriminate]|].
    apply Forall2_nil. }
  refine (conj eq_refl (conj eq_refl (conj HF _))).
  exact (vector_items (fun x => x) (fun x => x) hp rp ds xs eq_refl eq_refl HF).
Defined.

Lemma parse_sequence_witness :
  let ds := [[Lexer.mkToken Lexer.IDENT (str "a")];
             [Lexer.mkToken Lexer.LPAREN (str "("); Lexer.mkToken Lexer.RPAREN (str ")")]] in
  let xs := [Some (Parser.Atom Parser.SYMBOL (Parser.VString (str "a"))); Some (Parser.Expr None None)] in
  Forall2 (fun d x => exists f, Parser.ParseNextNode (fun x => x) (fun x => x) f d 0 = Ok (x, length d)) ds xs /\
  exists f, Parser.ParseTokens (fun x => x) (fun x => x) f (concat ds) = Ok xs.
Proof.
  intros ds xs.
  assert (HF : Forall2 (fun d x => exists f, Parser.ParseNextNode (fun x => x) (fun x => x) f d 0
                                           = Ok (x, length d)) ds xs)
    by (apply Forall2_cons; [exists 1%nat; reflexivity|];
        apply Forall2_cons; [exists 5%nat; reflexivity|]; apply Forall2_nil).
  exact (conj HF (parse_sequence (fun x => x) (fun x => x) ds xs HF)).
Defined.

Lemma list_dot_first_witness :
  let lp := Lexer.mkToken Lexer.LPAREN (str "(") in
  let dot := Lexer.mkToken Lexer.DOT (str ".") in
  Lexer.Type_ lp = Lexer.LPAREN /\ Lexer.Type_ dot = Lexer.DOT /\
  forall f r, Parser.ParseNextNode (fun x => x) (fun x => x) f
                (lp :: dot :: [Lexer.mkToken Lexer.IDENT (str "a"); Lexer.mkToken Lexer.RPAREN (str ")")]) 0 <> Ok r.
Proof.
  intros lp dot.
  exact (conj eq_refl (conj eq_refl (list_dot_first (fun x => x) (fun x => x) lp dot _ eq_refl eq_refl))).
Defined.

Lemma list_end_expected_witness :
  let lp := Lexer.mkToken Lexer.LPAREN (str "(") in
  let dot := Lexer.mkToken Lexer.DOT (str ".") in
  let t := Lexer.mkToken Lexer.IDENT (str "c") in
  let ds := [[Lexer.mkToken Lexer.IDENT (str "a")]] in
  let ss := [Parser.Atom Parser.SYMBOL (Parser.VString (str "a"))] in
  let e := [Lexer.mkToken Lexer.IDENT (str "b")] in
  let x := Some (Parser.Atom Parser.SYMBOL (Parser.VString (str "b"))) in
  let post := [Lexer.mkToken Lexer.RPAREN (str ")")] in
  Lexer.Type_ lp = Lexer.LPAREN /\ Lexer.Type_ dot = Lexer.DOT /\ Lexer.Type_ t <> Lexer.RPAREN /\
  Forall2 (fun d s => exists f, Parser.ParseNextNode (fun x => x) (fun x => x) f d 0 = Ok (Some s, length d)) ds ss /\
  ss <> [] /\
  (exists f, Parser.ParseNextNode (fun x => x) (fun x => x) f e 0 = Ok (x, length e)) /\
  forall f, Parser.ParseNextNode (fun x => x) (fun x => x) f (lp :: concat ds ++ dot :: e ++ t :: post) 0 = OutOfFuel \/
            Parser.ParseNextNode (fun x => x) (fun x => x) f (lp :: concat ds ++ dot :: e ++ t :: post) 0
              = Panic (PString (str "list end expected")).
Proof.
  intros lp dot t ds ss e x post.
  assert (Ht : Lexer.Type_ t <> Lexer.RPAREN) by discriminate.
  assert (HF : Forall2 (fun d s => exists f, Parser.ParseNextNode (fun x => x) (fun x => x) f d 0
                                           = Ok (Some s, length d)) ds ss)
    by (apply Forall2_cons; [exists 1%nat; reflexivity|]; apply Forall2_nil).
  assert (Hss : ss <> []) by discriminate.
  assert (He : exists f, Parser.ParseNextNode (fun x => x) (fun x => x) f e 0 = Ok (x, length e))
    by (exists 1%nat; reflexivity).
  refine (conj eq_refl (conj eq_refl (conj Ht (conj HF (conj Hss (conj He _)))))).
  exact (list_end_expected (fun x => x) (fun x => x) lp dot t ds ss e x post eq_refl eq_refl Ht HF Hss He).
Defined.

Lemma dotted_list_at_end_witness :
  let lp := Lexer.mkToken Lexer.LPAREN (str "(") in
  let dot := Lexer.mkToken Lexer.DOT (str ".") in
  let rp := Lexer.mkToken Lexer.RPAREN (str ")") in
  let ds := [[Lexer.mkToken Lexer.IDENT (str "a")]; [Lexer.mkToken Lexer.BOOL (str "#t")]] in
  let ss := [Parser.Atom Parser.SYMBOL (Parser.VString (str "a")); Parser.Atom Parser.BOOL (Parser.VBool true)] in
  let e := [Lexer.mkToken Lexer.IDENT (str "b")] in
  let x := Some (Parser.Atom Parser.SYMBOL (Parser.VString (str "b"))) in
  Lexer.Type_ lp = Lexer.LPAREN /\ Lexer.Type_ dot = Lexer.DOT /\ Lexer.Type_ rp = Lexer.RPAREN /\
  Forall2 (fun d s => exists f, Parser.ParseNextNode (fun x => x) (fun x => x) f d 0 = Ok (Some s, length d)) ds ss /\
  ss <> [] /\
  (exists f, Parser.ParseNextNode (fun x => x) (fun x => x) f e 0 = Ok (x, length e)) /\
  forall f, Parser.ParseNextNode (fun x => x) (fun x => x) f (lp :: concat ds ++ dot :: e ++ [rp]) 0 = OutOfFuel \/
            Parser.ParseNextNode (fun x => x) (fun x => x) f (lp :: concat ds ++ dot :: e ++ [rp]) 0
              = Parser.index_panic.
Proof.
  intros lp dot rp ds ss e x.
  assert (HF : Forall2 (fun d s => exists f, Parser.ParseNextNode (fun x => x) (fun x => x) f d 0
                                           = Ok (Some s, length d)) ds ss)
    by (apply Forall2_cons; [exists 1%nat; reflexivity|];
        apply Forall2_cons; [exists 1%nat; reflexivity|]; apply Forall2_nil).
  assert (Hss : ss <> []) by discriminate.
  assert (He : exists f, Parser.ParseNextNode (fun x => x) (fun x => x) f e 0 = Ok (x, length e))
    by (exists 1%nat; reflexivity).
  refine (conj eq_refl (conj eq_refl (conj eq_refl (conj HF (conj Hss (conj He _)))))).
  exact (dotted_list_at_end (fun x => x) (fun x => x) lp dot rp ds ss e x eq_refl eq_refl eq_refl HF Hss He).
Defined.
